(** * Primary-key index recovery for lake tablets

    A shallow embedding of [be/src/storage/lake/lake_primary_key_recover.cpp]
    and of the hashed slices of [be/src/column/hash_set.h], with the
    properties the design document states about them.

    Conventions.  A [uint32_t] (rowset id, row id, column id) is an [N], an
    [int64_t] (tablet id, version) and an [int] a [Z]; casts between widths
    are written out.  Code that returns a [Status] is a computation of the
    monad [M]: it threads the mutable state and stops at the first error,
    as [RETURN_IF_ERROR] does.  The collaborators whose code lives in other
    translation units (segment readers, the persistent index store, the
    schema helpers, the slice hash) are the fields of type classes, so every
    theorem holds for all their implementations. *)

From Stdlib Require Import ZArith NArith List Permutation Sorted Lia Bool.
From stdpp Require Import base option list gmap strings sorting pretty.

Local Open Scope N_scope.

(* ===================================================================== *)
(** * Part I: the model                                                   *)
(* ===================================================================== *)

(** ** Status, StatusOr and the error monad *)

Inductive StatusCode :=
| IOError | NotFound | Corruption | InternalError | MemLimitExceeded.

Inductive Status :=
| OK
| Error (code : StatusCode) (msg : string).

Inductive StatusOr (A : Type) :=
| Value (a : A)
| NotOk (code : StatusCode) (msg : string).
Arguments Value {A} a.
Arguments NotOk {A} code msg.

(** [StatusOr<T>::status()] and [ok()]. *)
Definition status {A} (r : StatusOr A) : Status :=
  match r with
  | Value _ => OK
  | NotOk c m => Error c m
  end.


(** A [Status] seen as the result of a computation without a value. *)
Definition of_status (st : Status) : StatusOr unit :=
  match st with
  | OK => Value tt
  | Error c m => NotOk c m
  end.

#[global] Instance StatusCode_eq_dec : EqDecision StatusCode.
Proof. solve_decision. Defined.
#[global] Instance Status_eq_dec : EqDecision Status.
Proof. solve_decision. Defined.

(** Computations over a mutable state [St] that may stop with an error.
    The state reached so far is kept when the computation fails: what was
    written before the error stays written. *)
Definition M (St A : Type) : Type := St → StatusOr A * St.

#[global] Instance M_ret {St} : MRet (M St) := λ A a s, (Value a, s).
#[global] Instance M_bind {St} : MBind (M St) := λ A B f m s,
  match m s with
  | (Value a, s') => f a s'
  | (NotOk c msg, s') => (NotOk c msg, s')
  end.

(** [for (auto& x : xs) { body }] where the body may return early with an
    error. *)
Fixpoint for_each {St A} (body : A → M St unit) (xs : list A) : M St unit :=
  match xs with
  | [] => mret tt
  | x :: xs' => body x ≫= λ _, for_each body xs'
  end.

(** ** Tablet metadata (the protobuf messages, fields used here) *)

Record RowsetMetadataPB := {
  id : N;                                           (* optional uint32 id *)
  segments : list string;                           (* repeated string segments *)
  max_compact_input_rowset_id_opt : option N        (* optional uint32 *)
}.

(** The protobuf accessors of an optional field: [has_x()] and [x()], the
    latter giving the default 0 of the type when the field is absent. *)
Definition has_max_compact_input_rowset_id (m : RowsetMetadataPB) : bool :=
  bool_decide (is_Some (max_compact_input_rowset_id_opt m)).
Definition max_compact_input_rowset_id (m : RowsetMetadataPB) : N :=
  default 0 (max_compact_input_rowset_id_opt m).

(** A [lake::Rowset]: a view on one rowset of the metadata. *)
Record Rowset := { metadata : RowsetMetadataPB }.

(** [Rowset::id()]. *)
Definition Rowset_id (r : Rowset) : N := id (metadata r).

#[global] Instance RowsetMetadataPB_eq_dec : EqDecision RowsetMetadataPB.
Proof. solve_decision. Defined.
#[global] Instance Rowset_eq_dec : EqDecision Rowset.
Proof. solve_decision. Defined.

(** ** [std::sort]

    The standard asks of [std::sort(first, last, comp)] that the range end
    up a permutation of itself in which no element is [comp]-less than one
    before it; the order of equivalent elements is not specified.
    [sort_contract] is that contract.  [std_sort] is the executable model,
    an insertion sort as the library runs on short ranges: the elements are
    taken left to right, and each one is placed in the part already sorted
    before the first element that is [comp]-greater than it, hence after
    the elements equivalent to it. *)

Section std_sort.
Context {A : Type} (comp : A → A → bool).

Fixpoint linear_insert (v : A) (sorted : list A) : list A :=
  match sorted with
  | [] => [v]
  | x :: rest =>
      if comp v x then v :: x :: rest else x :: linear_insert v rest
  end.

Definition std_sort (range : list A) : list A :=
  fold_left (λ sorted v, linear_insert v sorted) range [].

Definition sort_contract (input output : list A) : Prop :=
  output ≡ₚ input ∧ StronglySorted (λ x y, comp y x = false) output.
End std_sort.

(** ** [LakePrimaryKeyRecover::sort_rowsets] *)

(** The comparison id of a rowset, as both halves of the lambda compute it:
    a rowset generated by compaction uses its max compact input rowset id. *)
Definition comp_id (rowset_meta : RowsetMetadataPB) : N :=
  if has_max_compact_input_rowset_id rowset_meta
  then max_compact_input_rowset_id rowset_meta
  else id rowset_meta.

(** The order of the rowsets by comparison id. *)
Abbreviation by_comp_id := (λ a b : Rowset, comp_id (metadata a) ≤ comp_id (metadata b)).

(** The order of the rowsets by their own id. *)
Abbreviation by_rowset_id := (λ a b : Rowset, Rowset_id a ≤ Rowset_id b).

(** The lambda given to [std::sort]. *)
Definition rowset_less (a b : Rowset) : bool :=
  let rowset_meta_a := metadata a in
  let rowset_meta_b := metadata b in
  let rowset_a_comp_id := comp_id rowset_meta_a in
  let rowset_b_comp_id := comp_id rowset_meta_b in
  rowset_a_comp_id <? rowset_b_comp_id.

(** [sort_rowsets] sorts the vector in place and returns [Status::OK()]:
    the state of the computation is the vector. *)
Definition sort_rowsets : M (list Rowset) unit :=
  λ rowsets, (Value tt, std_sort rowset_less rowsets).

(** The vector after [sort_rowsets]. *)
Definition sorted_rowsets (rowsets : list Rowset) : list Rowset :=
  (sort_rowsets rowsets).2.

(** Independence of the input order, as the design document asks for it
    (C3): the sorted sequence is the same for every arrangement of the
    input. *)
Definition sort_rowsets_ignores_input_order : Prop :=
  ∀ l1 l2 : list Rowset, l1 ≡ₚ l2 → sorted_rowsets l1 = sorted_rowsets l2.

(** Rowsets of scenario C of the design document, and two rowsets with the
    same comparison id. *)
Definition mk_rowset (i : N) (lineage : option N) : Rowset :=
  {| metadata := {| id := i; segments := []; max_compact_input_rowset_id_opt := lineage |} |}.
Definition R3 : Rowset := mk_rowset 7 (Some 10).
Definition R4 : Rowset := mk_rowset 9 None.
Definition R5 : Rowset := mk_rowset 5 None.
Definition R6 : Rowset := mk_rowset 3 (Some 5).

(** ** Collaborators *)

(** The schema helpers: [TabletSchema] (built from the protobuf schema of
    the metadata), [Schema] and [ChunkHelper::convert_schema]. *)
Class SchemaLib := {
  TabletSchemaPB : Type;
  TabletSchema : Type;
  Schema : Type;
  make_TabletSchema : TabletSchemaPB → TabletSchema;
  num_key_columns : TabletSchema → N;                      (* size_t *)
  convert_schema : TabletSchema → list N → Schema          (* cids : vector<ColumnId> *)
}.

Record DataDir := { get_persistent_index_path : string }.
Record RandomAccessFile := { filename : string }.
Record Tablet := { Tablet_id : Z }.

(** The stateful collaborators.  [Cache] is the state of the update manager's
    primary index cache, [Store] the state of the persistent index store (its
    meta in rocksdb and its files), [World] whatever segment readers and the
    handler read and write (segment files, reader statistics, the index
    under construction). *)
Class Storage (Cache Store World : Type) {SL : SchemaLib} := {
  ChunkIterator : Type;
  try_remove_primary_index_cache : Z → Cache → bool * Cache;
  get_persistent_index_store : Z → option DataDir;
  remove_tablet_persistent_index_meta : DataDir → Z → Store → Status * Store;
  fs_remove_all : string → Store → Status * Store;
  get_each_segment_iterator : Rowset → Schema → World → StatusOr (list ChunkIterator) * World
}.

(** ** Delete vectors and the metadata builder *)

Record DelVector := { dv_version : Z; dv_rowids : list N }.

(** Modelled from the spec: [DelVector::init(version, data, length)] is not
    among the sources at hand.  A DelVector is "an immutable, versioned
    record (rowset id, version, sorted row-id list)", constructed from "the
    target recovery version and the row-id list", sorted ascending. *)
Definition DelVector_init (version : Z) (del_ids : list N) : DelVector :=
  {| dv_version := version; dv_rowids := merge_sort N.le del_ids |}.

Record MetaFileBuilder := { queued_delvecs : list (N * DelVector) }.

(** Modelled from the spec: [MetaFileBuilder::append_delvec(delvec, id)] is
    not among the sources at hand; it "queues for commit, not yet durable"
    the delete vector, "keyed by its rowset id". *)
Definition append_delvec (delvec : DelVector) (rowset_id : N) (b : MetaFileBuilder)
  : MetaFileBuilder :=
  {| queued_delvecs := queued_delvecs b ++ [(rowset_id, delvec)] |}.

(** The [DeletesMap] of the primary index:
    [std::unordered_map<uint32_t, std::vector<uint32_t>>]. *)
Abbreviation DeletesMap := (gmap N (list N)).

(** ** The recovery object and what it calls *)

Record DelvecMetadataPB := { delvecs : list (N * (N * N)) }.

Record TabletMetadataPB {SL : SchemaLib} := {
  tablet_meta_id : Z;
  version : Z;
  schema : TabletSchemaPB;
  rowsets : list RowsetMetadataPB;
  delvec_meta_opt : option DelvecMetadataPB
}.

(** Calls on collaborators, in the order they are made, with their outcome. *)
Inductive Call :=
| Call_clear_delvec_meta
| Call_try_remove_primary_index_cache (tablet_id : Z) (removed : bool)
| Call_remove_tablet_persistent_index_meta (dir : DataDir) (tablet_id : Z) (st : Status)
| Call_remove_all (path : string) (st : Status)
| Call_get_each_segment_iterator (rowset : Rowset) (st : Status)
| Call_handler (rowset : Rowset) (st : Status).

(** What one run of the loop of [rowset_iterator] over [rowsets] leaves in
    the record of calls, with the result of the loop: it stops at the first
    rowset whose segment iterators cannot be had, or that the handler
    rejects. *)
Inductive loop_outcome : list Rowset → StatusOr unit → list Call → Prop :=
| loop_done :
    loop_outcome [] (Value tt) []
| loop_open_failed r rest c msg :
    loop_outcome (r :: rest) (NotOk c msg)
      [Call_get_each_segment_iterator r (Error c msg)]
| loop_handler_failed r rest c msg :
    loop_outcome (r :: rest) (NotOk c msg)
      [Call_get_each_segment_iterator r OK; Call_handler r (Error c msg)]
| loop_next r rest res cs :
    loop_outcome rest res cs →
    loop_outcome (r :: rest) res
      (Call_get_each_segment_iterator r OK :: Call_handler r OK :: cs).

Section recover.
Context {Cache Store World : Type} {SL : SchemaLib} {ST : Storage Cache Store World}.

(** The members of [LakePrimaryKeyRecover] and the state of the world it
    acts on. *)
Record State := {
  _tablet : Tablet;
  _metadata : TabletMetadataPB;
  _builder : MetaFileBuilder;
  index_cache : Cache;
  index_store : Store;
  world : World;
  calls : list Call
}.

Definition set_metadata (m : TabletMetadataPB) (s : State) : State :=
  {| _tablet := _tablet s; _metadata := m; _builder := _builder s;
     index_cache := index_cache s; index_store := index_store s;
     world := world s; calls := calls s |}.
Definition set_builder (b : MetaFileBuilder) (s : State) : State :=
  {| _tablet := _tablet s; _metadata := _metadata s; _builder := b;
     index_cache := index_cache s; index_store := index_store s;
     world := world s; calls := calls s |}.
Definition set_index_cache (c : Cache) (s : State) : State :=
  {| _tablet := _tablet s; _metadata := _metadata s; _builder := _builder s;
     index_cache := c; index_store := index_store s;
     world := world s; calls := calls s |}.
Definition set_index_store (st : Store) (s : State) : State :=
  {| _tablet := _tablet s; _metadata := _metadata s; _builder := _builder s;
     index_cache := index_cache s; index_store := st;
     world := world s; calls := calls s |}.
Definition set_world (w : World) (s : State) : State :=
  {| _tablet := _tablet s; _metadata := _metadata s; _builder := _builder s;
     index_cache := index_cache s; index_store := index_store s;
     world := w; calls := calls s |}.
Definition record_call (c : Call) (s : State) : State :=
  {| _tablet := _tablet s; _metadata := _metadata s; _builder := _builder s;
     index_cache := index_cache s; index_store := index_store s;
     world := world s; calls := calls s ++ [c] |}.

(** [TabletMetadataPB::clear_delvec_meta()]. *)
Definition clear_delvec_meta (m : TabletMetadataPB) : TabletMetadataPB :=
  {| tablet_meta_id := tablet_meta_id m; version := version m; schema := schema m;
     rowsets := rowsets m; delvec_meta_opt := None |}.

(** Modelled from the spec: [Tablet::get_rowsets(metadata)] is not among
    the sources at hand; "given tablet metadata, returns the set of
    rowsets", one per rowset of the snapshot, in the order of the
    snapshot. *)
Definition get_rowsets (t : Tablet) (m : TabletMetadataPB) : list Rowset :=
  Build_Rowset <$> rowsets m.

(** *** The calls, as computations *)

Definition do_clear_delvec_meta : M State unit := λ s,
  (Value tt, record_call Call_clear_delvec_meta
               (set_metadata (clear_delvec_meta (_metadata s)) s)).

(** The result of the eviction is dropped by the caller, hence [unit]. *)
Definition do_try_remove_primary_index_cache (tablet_id : Z) : M State unit := λ s,
  let '(removed, c) := try_remove_primary_index_cache tablet_id (index_cache s) in
  (Value tt, record_call (Call_try_remove_primary_index_cache tablet_id removed)
               (set_index_cache c s)).

Definition do_remove_tablet_persistent_index_meta (data_dir : DataDir) (tablet_id : Z)
  : M State unit := λ s,
  let '(st, store) := remove_tablet_persistent_index_meta data_dir tablet_id (index_store s) in
  (of_status st, record_call (Call_remove_tablet_persistent_index_meta data_dir tablet_id st)
                   (set_index_store store s)).

Definition do_remove_all (path : string) : M State unit := λ s,
  let '(st, store) := fs_remove_all path (index_store s) in
  (of_status st, record_call (Call_remove_all path st) (set_index_store store s)).

Definition do_get_each_segment_iterator (rowset : Rowset) (pkey_schema : Schema)
  : M State (list ChunkIterator) := λ s,
  let '(res, w) := get_each_segment_iterator rowset pkey_schema (world s) in
  (res, record_call (Call_get_each_segment_iterator rowset (status res)) (set_world w s)).

(** The type of the [std::function] given to [rowset_iterator].  What the
    closure reads and writes is the world [World]; nothing is stated here
    about members of the recovery object that a closure could capture. *)
Definition Handler : Type :=
  list ChunkIterator → list RandomAccessFile → list N → N → World → Status * World.

Definition do_handler (handler : Handler) (rowset : Rowset) (itrs : list ChunkIterator)
  : M State unit := λ s,
  let '(st, w) := handler itrs [] [] (Rowset_id rowset) (world s) in
  (of_status st, record_call (Call_handler rowset st) (set_world w s)).

(** *** [pre_cleanup] *)

(** [strings::Substitute("$0/$1/", path, tablet_id)]. *)
Definition tablet_pk_path_of (data_dir : DataDir) (tablet_id : Z) : string :=
  get_persistent_index_path data_dir +:+ "/" +:+ pretty tablet_id +:+ "/".

Definition pre_cleanup : M State unit := λ s,
  ((* 1. reset delvec in metadata and clean delvec in builder *)
   do_clear_delvec_meta ;;
   (* 2. reset primary index *)
   do_try_remove_primary_index_cache (Tablet_id (_tablet s)) ;;
   let data_dir := get_persistent_index_store (Tablet_id (_tablet s)) in
   match data_dir with
   | Some data_dir =>
       do_remove_tablet_persistent_index_meta data_dir (Tablet_id (_tablet s)) ;;
       let tablet_pk_path := tablet_pk_path_of data_dir (Tablet_id (_tablet s)) in
       do_remove_all tablet_pk_path ;;
       mret tt
   | None => mret tt
   end) s.

(** The state after the first two steps of [pre_cleanup], which cannot
    fail. *)
Definition after_reset (s : State) : State :=
  let tablet_id := Tablet_id (_tablet s) in
  let evicted := try_remove_primary_index_cache tablet_id (index_cache s) in
  record_call (Call_try_remove_primary_index_cache tablet_id evicted.1)
    (set_index_cache evicted.2
       (record_call Call_clear_delvec_meta
          (set_metadata (clear_delvec_meta (_metadata s)) s))).

(** *** [generate_pkey_schema] *)

(** The column ids 0, 1, ..., n-1. *)
Definition first_column_ids (n : N) : list N := N.of_nat <$> seq 0 (N.to_nat n).

Definition INT_MAX : Z := 2147483647.

(** [(ColumnId)i] for an [int i]: conversion to [uint32_t]. *)
Definition to_ColumnId (i : Z) : N := Z.to_N (i mod 2 ^ 32).
(** The usual arithmetic conversion of the [int i] in [i < n], where [n]
    is a [size_t]. *)
Definition to_size_t (i : Z) : N := Z.to_N (i mod 2 ^ 64).

(** The loop [for (auto i = 0; i < n; i++) pk_columns[i] = (ColumnId)i].
    [None] when the fuel runs out, and when [i++] would overflow the
    [int], which the language leaves undefined. *)
Fixpoint fill_pk_columns (fuel : nat) (n : N) (i : Z) (pk_columns : list N)
  : option (list N) :=
  if to_size_t i <? n then
    match fuel with
    | O => None
    | S fuel' =>
        let pk_columns := <[Z.to_nat i := to_ColumnId i]> pk_columns in
        if (i + 1 <=? INT_MAX)%Z then fill_pk_columns fuel' n (i + 1)%Z pk_columns
        else None
    end
  else Some pk_columns.

Definition generate_pkey_schema (s : State) : option Schema :=
  let tablet_schema := make_TabletSchema (schema (_metadata s)) in
  let n := num_key_columns tablet_schema in
  (* std::vector<ColumnId> pk_columns(n): n zeros *)
  let pk_columns := replicate (N.to_nat n) 0 in
  pk_columns ← fill_pk_columns (N.to_nat n) n 0%Z pk_columns;
  Some (convert_schema tablet_schema pk_columns).

(** *** [rowset_iterator] *)

Definition rowset_iterator (pkey_schema : Schema) (handler : Handler) : M State unit := λ s,
  let rowsets := get_rowsets (_tablet s) (_metadata s) in
  (* Sort the rowsets in order of primary key occurrence,
     so we can generate correct delvecs *)
  match sort_rowsets rowsets with
  | (NotOk c msg, _) => (NotOk c msg, s)
  | (Value _, rowsets) =>
      for_each (λ rowset,
                  itrs ← do_get_each_segment_iterator rowset pkey_schema;
                  do_handler handler rowset itrs)
               rowsets s
  end.

(** *** [finalize_delvec] *)

(** The delete vector built for one entry of the map. *)
Definition delvec_of (version : Z) (new_delete : N * list N) : N * DelVector :=
  (new_delete.1, DelVector_init version new_delete.2).

Definition do_append_delvec (delvec : DelVector) (rowset_id : N) : M State unit := λ s,
  (Value tt, set_builder (append_delvec delvec rowset_id (_builder s)) s).

(** The loop runs over the entries of the unordered map, in the order the
    map yields them.  That order is not fixed by the content of a
    [std::unordered_map]; [map_to_list] stands for one such order, and the
    properties below are stated so as to hold for every order. *)
Definition finalize_delvec (new_deletes : DeletesMap) : M State unit :=
  for_each (λ (new_delete : N * list N) s,
              let del_ids := new_delete.2 in
              let delvec := DelVector_init (version (_metadata s)) del_ids in
              do_append_delvec delvec new_delete.1 s)
           (map_to_list new_deletes).

(** [LakePrimaryKeyRecover::tablet_id()]. *)
Definition tablet_id (s : State) : Z := Tablet_id (_tablet s).

(** *** Reading the record of calls *)

(** The calls made between two states. *)
Definition new_calls (before after : State) : list Call :=
  drop (length (calls before)) (calls after).

Definition handled_rowset (c : Call) : option Rowset :=
  match c with Call_handler r _ => Some r | _ => None end.
Definition opened_rowset (c : Call) : option (Rowset * Status) :=
  match c with Call_get_each_segment_iterator r st => Some (r, st) | _ => None end.
Definition touches_index_store (c : Call) : bool :=
  match c with
  | Call_remove_tablet_persistent_index_meta _ _ _ | Call_remove_all _ _ => true
  | _ => false
  end.

(** The rowsets given to the handler, and the rowsets whose segment
    iterators were asked for, in order. *)
Definition handled (cs : list Call) : list Rowset := omap handled_rowset cs.
Definition opened (cs : list Call) : list (Rowset * Status) := omap opened_rowset cs.

(** The calls of the handler with the status each returned, in order. *)
Definition handler_call (c : Call) : option (Rowset * Status) :=
  match c with Call_handler r st => Some (r, st) | _ => None end.
Definition handler_calls (cs : list Call) : list (Rowset * Status) := omap handler_call cs.

(** *** A statement of the design document that the loop does not meet *)

End recover.

(** The same collaborators, with another behaviour of the cache eviction. *)
Definition with_eviction {Cache Store World : Type} {SL : SchemaLib}
    (evict : Z → Cache → bool * Cache) (ST : Storage Cache Store World)
  : Storage Cache Store World := {|
  ChunkIterator := ChunkIterator (Storage := ST);
  try_remove_primary_index_cache := evict;
  get_persistent_index_store := get_persistent_index_store (Storage := ST);
  remove_tablet_persistent_index_meta := remove_tablet_persistent_index_meta (Storage := ST);
  fs_remove_all := fs_remove_all (Storage := ST);
  get_each_segment_iterator := get_each_segment_iterator (Storage := ST)
|}.

(** ** Hashed slices ([be/src/column/hash_set.h]) *)

(** The hash functions of [column/column_hash.h]: what [SliceHash] and
    [SliceHashWithSeed<seed>] compute from the bytes a slice points at. *)
Class SliceHashLib := {
  PhmapSeed : Type;
  hash_bytes : list Byte.byte → N;                         (* size_t *)
  hash_bytes_with_seed : PhmapSeed → list Byte.byte → N
}.

Module HashSet.
Section hash_set.
Context {HL : SliceHashLib}.

(** Memory, read through the pointers that slices hold. *)
Definition Memory : Type := N → Byte.byte.

Record Slice := { data : N; size : N }.

(** The bytes of [[p, p + n)]. *)
Fixpoint read (mem : Memory) (p : N) (n : nat) : list Byte.byte :=
  match n with
  | O => []
  | S n' => mem p :: read mem (p + 1) n'
  end.

(** The byte string a slice denotes. *)
Definition contents (mem : Memory) (s : Slice) : list Byte.byte :=
  read mem (data s) (N.to_nat (size s)).

(** [memcmp(p1, p2, n) == 0]. *)
Fixpoint memcmp_eq (mem : Memory) (p1 p2 : N) (n : nat) : bool :=
  match n with
  | O => true
  | S n' => Byte.eqb (mem p1) (mem p2) && memcmp_eq mem (p1 + 1) (p2 + 1) n'
  end.

(** Modelled from the spec: [memequal(p1, size1, p2, size2)] is not among
    the sources at hand; it is the "byte-wise content comparison" of the
    two ranges, which differ when their sizes do. *)
Definition memequal (mem : Memory) (p1 size1 p2 size2 : N) : bool :=
  (size1 =? size2) && memcmp_eq mem p1 p2 (N.to_nat size1).

Definition SliceHash (mem : Memory) (src : Slice) : N :=
  hash_bytes (contents mem src).
Definition SliceHashWithSeed (seed : PhmapSeed) (mem : Memory) (src : Slice) : N :=
  hash_bytes_with_seed seed (contents mem src).

(** [class SliceWithHash : public Slice] with its two constructors. *)
Record SliceWithHash := { base : Slice; hash : N }.

Definition SliceWithHash_of_Slice (mem : Memory) (src : Slice) : SliceWithHash :=
  {| base := {| data := data src; size := size src |}; hash := SliceHash mem src |}.
Definition SliceWithHash_of_parts (p s h : N) : SliceWithHash :=
  {| base := {| data := p; size := s |}; hash := h |}.

Definition HashOnSliceWithHash (slice : SliceWithHash) : N := hash slice.

Definition EqualOnSliceWithHash (mem : Memory) (x y : SliceWithHash) : bool :=
  (* by comparing hash value first, we can avoid comparing real data *)
  (hash x =? hash y)
  && memequal mem (data (base x)) (size (base x)) (data (base y)) (size (base y)).

(** [template <PhmapSeed seed> class TSliceWithHash : public Slice]. *)
Record TSliceWithHash (seed : PhmapSeed) := { tbase : Slice; thash : N }.
Arguments tbase {seed} _.
Arguments thash {seed} _.

Definition TSliceWithHash_of_Slice (seed : PhmapSeed) (mem : Memory) (src : Slice)
  : TSliceWithHash seed :=
  {| tbase := {| data := data src; size := size src |};
     thash := SliceHashWithSeed seed mem src |}.
Definition TSliceWithHash_of_parts (seed : PhmapSeed) (p s h : N) : TSliceWithHash seed :=
  {| tbase := {| data := p; size := s |}; thash := h |}.

Definition THashOnSliceWithHash {seed} (slice : TSliceWithHash seed) : N := thash slice.

Definition TEqualOnSliceWithHash {seed} (mem : Memory) (x y : TSliceWithHash seed) : bool :=
  (thash x =? thash y)
  && memequal mem (data (tbase x)) (size (tbase x)) (data (tbase y)) (size (tbase y)).

(** Two memories hold the same bytes where the slice points. *)
Definition agree_on (mem mem' : Memory) (s : Slice) : Prop :=
  ∀ a, data s ≤ a < data s + size s → mem a = mem' a.
End hash_set.
Arguments tbase {_ seed} _.
Arguments thash {_ seed} _.
End HashSet.

(** ** A small tablet, for examples *)

(** Schemas as lists of (column name, is key); a [Schema] is the list of
    the columns picked. *)
Definition example_schema_lib : SchemaLib := {|
  TabletSchemaPB := list (string * bool);
  TabletSchema := list (string * bool);
  Schema := list (string * bool);
  make_TabletSchema := λ pb, pb;
  num_key_columns := λ ts, N.of_nat (length (filter (λ c, c.2 = true) ts));
  convert_schema := λ ts cids, omap (λ cid, ts !! N.to_nat cid) cids
|}.

(** A tablet with a configured persistent index store.  The cache and the
    store are sets of tablet ids; [remove_tablet_persistent_index_meta] and
    [fs::remove_all] succeed whether or not there is something to remove,
    unless the store is broken ([fail_meta], [fail_files]).  Segment readers
    fail on the rowsets listed in [unreadable]. *)
Definition example_storage (has_store fail_meta fail_files : bool) (unreadable : list N)
  : @Storage (gset Z) (gset Z) unit example_schema_lib := {|
  ChunkIterator := string;
  try_remove_primary_index_cache := λ tablet_id c,
    (bool_decide (tablet_id ∈ c), c ∖ {[tablet_id]});
  get_persistent_index_store := λ _,
    if has_store then Some {| get_persistent_index_path := "/data/persistent" |} else None;
  remove_tablet_persistent_index_meta := λ _ tablet_id st,
    if fail_meta then (Error IOError "rocksdb", st) else (OK, st ∖ {[tablet_id]});
  fs_remove_all := λ _ st,
    if fail_files then (Error IOError "remove_all", st) else (OK, st);
  get_each_segment_iterator := λ rowset _ w,
    if bool_decide (Rowset_id rowset ∈ unreadable)
    then (NotOk Corruption "segment", w)
    else (Value (segments (metadata rowset)), w)
|}.

Definition example_schema : list (string * bool) :=
  [("k1"%string, true); ("k2"%string, true); ("v1"%string, false)].

Definition example_metadata (rs : list Rowset)
  : @TabletMetadataPB example_schema_lib :=
  @Build_TabletMetadataPB example_schema_lib
    10001 12 example_schema (metadata <$> rs) (Some {| delvecs := [(7, (0, 16))] |}).

Definition example_state (rs : list Rowset)
  : @State (gset Z) (gset Z) unit example_schema_lib :=
  @Build_State (gset Z) (gset Z) unit example_schema_lib
    {| Tablet_id := 10001 |} (example_metadata rs) {| queued_delvecs := [] |}
    {[ 10001%Z ]} {[ 10001%Z ]} tt [].

Definition example_pkey_schema : @Schema example_schema_lib :=
  [("k1"%string, true); ("k2"%string, true)].

(** A handler that accepts every rowset, and one that rejects every rowset. *)
Definition accepting_handler {It}
  : list It → list RandomAccessFile → list N → N → unit → Status * unit :=
  λ _ _ _ _ w, (OK, w).
Definition rejecting_handler {It}
  : list It → list RandomAccessFile → list N → N → unit → Status * unit :=
  λ _ _ _ _ w, (Error InternalError "handler", w).

(** A hash with many collisions, the number of bytes, and a memory that
    holds the bytes a b a b ... from address 0 on; [example_memory'] holds
    the same bytes below address 4 and zeros above. *)
Definition example_hash_lib : SliceHashLib := {|
  PhmapSeed := N;
  hash_bytes := λ bytes, N.of_nat (length bytes);
  hash_bytes_with_seed := λ seed bytes, seed + N.of_nat (length bytes)
|}.
Definition example_memory : HashSet.Memory :=
  λ a, if N.even a then Byte.x61 else Byte.x62.
Definition example_memory' : HashSet.Memory :=
  λ a, if a <? 4 then example_memory a else Byte.x00.
Definition slice_ab : HashSet.Slice := {| HashSet.data := 0; HashSet.size := 2 |}.
Definition slice_ab' : HashSet.Slice := {| HashSet.data := 2; HashSet.size := 2 |}.
Definition slice_ba : HashSet.Slice := {| HashSet.data := 1; HashSet.size := 2 |}.

(** A handler that accepts a call only when it comes without files and
    without row ids. *)
Definition picky_handler {It}
  : list It → list RandomAccessFile → list N → N → unit → Status * unit :=
  λ _ files rowids _ w,
    match files, rowids with
    | [], [] => (OK, w)
    | _, _ => (Error InternalError "unexpected arguments", w)
    end.

(* ===================================================================== *)
(** * Part II: properties                                                 *)
(* ===================================================================== *)

(** ** [std::sort] meets its contract *)

Section std_sort_correct.
Context {A : Type} (comp : A → A → bool).
(** What the standard asks of the comparator, a strict weak ordering, as
    far as sorting needs it. *)
Hypothesis comp_asym : ∀ x y, comp x y = true → comp y x = false.
Hypothesis comp_negtrans : ∀ x y z, comp y x = false → comp z y = false → comp z x = false.

Local Abbreviation not_after := (λ x y, comp y x = false).

Lemma linear_insert_Permutation v l : linear_insert comp v l ≡ₚ v :: l.
Proof.
  induction l as [|x l IH]; simpl; [done|].
  destruct (comp v x); [done|].
  rewrite IH. apply perm_swap.
Qed.

Lemma linear_insert_sorted v l :
  StronglySorted not_after l → StronglySorted not_after (linear_insert comp v l).
Proof.
  induction l as [|x l IH]; simpl; intros Hs.
  - repeat constructor.
  - apply StronglySorted_cons in Hs as [Hx Hl].
    destruct (comp v x) eqn:Hvx.
    + apply StronglySorted_cons. split; [|apply StronglySorted_cons; by split].
      constructor; [by apply comp_asym|].
      eapply Forall_impl; [exact Hx|]. simpl. intros y Hy.
      apply comp_negtrans with x; [by apply comp_asym|done].
    + apply StronglySorted_cons. split; [|by apply IH].
      rewrite linear_insert_Permutation. by constructor.
Qed.

Lemma fold_linear_insert_contract range acc :
  StronglySorted not_after acc →
  let out := fold_left (λ sorted v, linear_insert comp v sorted) range acc in
  out ≡ₚ acc ++ range ∧ StronglySorted not_after out.
Proof.
  revert acc. induction range as [|v range IH]; simpl; intros acc Hacc.
  - by rewrite app_nil_r.
  - destruct (IH (linear_insert comp v acc)) as [Hp Hs];
      [by apply linear_insert_sorted|].
    split; [|done]. rewrite Hp, linear_insert_Permutation.
    simpl. apply Permutation_middle.
Qed.

Lemma std_sort_contract range : sort_contract comp range (std_sort comp range).
Proof.
  destruct (fold_linear_insert_contract range []) as [Hp Hs]; [constructor|].
  by split.
Qed.
End std_sort_correct.

(** ** [sort_rowsets] *)

Lemma rowset_less_spec a b :
  rowset_less a b = true ↔ comp_id (metadata a) < comp_id (metadata b).
Proof. unfold rowset_less; simpl. apply N.ltb_lt. Qed.

Lemma rowset_less_false a b :
  rowset_less b a = false ↔ comp_id (metadata a) ≤ comp_id (metadata b).
Proof. unfold rowset_less; simpl. rewrite N.ltb_ge. done. Qed.

Lemma comp_id_present i segs c :
  comp_id {| id := i; segments := segs; max_compact_input_rowset_id_opt := Some c |} = c.
Proof. reflexivity. Qed.

Lemma comp_id_absent i segs :
  comp_id {| id := i; segments := segs; max_compact_input_rowset_id_opt := None |} = i.
Proof. reflexivity. Qed.

(** The lambda is a strict weak ordering, and [sort_rowsets] meets the
    contract of [std::sort] for it. *)
Lemma rowset_less_asym x y : rowset_less x y = true → rowset_less y x = false.
Proof. rewrite rowset_less_spec, rowset_less_false. lia. Qed.

Lemma rowset_less_negtrans x y z :
  rowset_less y x = false → rowset_less z y = false → rowset_less z x = false.
Proof. rewrite !rowset_less_false. lia. Qed.

Lemma sort_rowsets_contract rowsets :
  sort_contract rowset_less rowsets (sorted_rowsets rowsets).
Proof.
  unfold sorted_rowsets, sort_rowsets; simpl.
  apply std_sort_contract; [apply rowset_less_asym|apply rowset_less_negtrans].
Qed.

(** What the contract says of the rowsets: every output that it admits is
    in ascending order of comparison id. *)
Lemma sort_contract_by_comp_id input output :
  sort_contract rowset_less input output → StronglySorted by_comp_id output.
Proof.
  intros [_ Hs]. induction Hs as [|x l Hs IH Hx]; constructor; [done|].
  eapply Forall_impl; [exact Hx|]. intros y Hy. by apply rowset_less_false.
Qed.

Lemma sorted_rowsets_Permutation rowsets : sorted_rowsets rowsets ≡ₚ rowsets.
Proof. apply sort_rowsets_contract. Qed.

Lemma sorted_rowsets_sorted rowsets : StronglySorted by_comp_id (sorted_rowsets rowsets).
Proof. eapply sort_contract_by_comp_id, sort_rowsets_contract. Qed.

(** In a list sorted by comparison id, a rowset with the smaller comparison
    id stands before one with the greater. *)
Lemma sorted_places_before (l : list Rowset) (lo hi : Rowset) :
  StronglySorted by_comp_id l → lo ∈ l → hi ∈ l →
  comp_id (metadata lo) < comp_id (metadata hi) →
  ∃ l1 l2 l3, l = l1 ++ lo :: l2 ++ hi :: l3.
Proof.
  intros Hs Hlo Hhi Hlt.
  apply list_elem_of_split in Hlo as (l1 & l' & ->).
  apply StronglySorted_app in Hs as (Hcross & _ & _).
  apply elem_of_app in Hhi as [Hhi|Hhi].
  - specialize (Hcross hi lo Hhi ltac:(left)). simpl in Hcross. lia.
  - apply elem_of_cons in Hhi as [->|Hhi]; [lia|].
    apply list_elem_of_split in Hhi as (l2 & l3 & ->). by exists l1, l2, l3.
Qed.

(** Two sorted arrangements of the same rowsets show the same sequence of
    comparison ids, and are the same sequence when no comparison id occurs
    twice. *)
Lemma sorted_comp_ids_unique (l1 l2 : list Rowset) :
  StronglySorted by_comp_id l1 → StronglySorted by_comp_id l2 → l1 ≡ₚ l2 →
  (comp_id ∘ metadata) <$> l1 = (comp_id ∘ metadata) <$> l2.
Proof.
  intros H1 H2 Hp.
  apply (StronglySorted_unique N.le).
  - by apply (StronglySorted_fmap _ by_comp_id N.le).
  - by apply (StronglySorted_fmap _ by_comp_id N.le).
  - by apply fmap_Permutation.
Qed.

Lemma NoDup_fmap_eq {A B} (f : A → B) (l : list A) x y :
  NoDup (f <$> l) → x ∈ l → y ∈ l → f x = f y → x = y.
Proof.
  induction l as [|a l IH]; simpl; intros Hnd Hx Hy Hf; [by apply elem_of_nil in Hx|].
  apply NoDup_cons in Hnd as [Ha Hnd].
  apply elem_of_cons in Hx as [->|Hx]; apply elem_of_cons in Hy as [->|Hy]; try done.
  - exfalso. apply Ha. rewrite Hf. by apply list_elem_of_fmap_2.
  - exfalso. apply Ha. rewrite <- Hf. by apply list_elem_of_fmap_2.
  - by apply IH.
Qed.

Lemma sorted_unique_distinct (l1 l2 : list Rowset) :
  NoDup ((comp_id ∘ metadata) <$> l1) →
  StronglySorted by_comp_id l1 → StronglySorted by_comp_id l2 → l1 ≡ₚ l2 → l1 = l2.
Proof.
  intros Hnd H1 H2 Hp.
  apply (StronglySorted_unique_strong by_comp_id); try done.
  intros x1 x2 Hx1 Hx2 Hle1 Hle2. simpl in *.
  apply (NoDup_fmap_eq (comp_id ∘ metadata) l1); try done.
  - by rewrite Hp.
  - simpl. lia.
Qed.

(** C1.  [sort_rowsets] returns OK and leaves the rowsets it was given in
    ascending order of comparison id: the max compact input rowset id of a
    rowset that has one, the rowset's own id otherwise.  A rowset with max
    compact input rowset id 10 and id 7 therefore comes after a rowset with
    id 9 and no compaction lineage, wherever the two stand in the input. *)
Theorem sort_rowsets_ascending_comp_id (rowsets : list Rowset) :
  (sort_rowsets rowsets).1 = Value tt
  ∧ sorted_rowsets rowsets ≡ₚ rowsets
  ∧ StronglySorted by_comp_id (sorted_rowsets rowsets)
  ∧ (∀ m, comp_id m = match max_compact_input_rowset_id_opt m with
                       | Some c => c
                       | None => id m
                       end)
  ∧ (∀ r3 r4 : Rowset,
       id (metadata r3) = 7 → max_compact_input_rowset_id_opt (metadata r3) = Some 10 →
       id (metadata r4) = 9 → max_compact_input_rowset_id_opt (metadata r4) = None →
       r3 ∈ rowsets → r4 ∈ rowsets →
       ∃ l1 l2 l3, sorted_rowsets rowsets = l1 ++ r4 :: l2 ++ r3 :: l3).
Proof.
  split; [done|]. split; [apply sorted_rowsets_Permutation|].
  split; [apply sorted_rowsets_sorted|]. split.
  - intros [i segs [c|]]; reflexivity.
  - intros [[i3 s3 c3]] [[i4 s4 c4]]; simpl. intros -> -> -> -> H3 H4.
    apply sorted_places_before.
    + apply sorted_rowsets_sorted.
    + by rewrite sorted_rowsets_Permutation.
    + by rewrite sorted_rowsets_Permutation.
    + simpl. rewrite comp_id_present, comp_id_absent. lia.
Qed.

Lemma sort_rowsets_ascending_comp_id_scenario_C :
  ∃ l1 l2 l3, sorted_rowsets [R3; R4] = l1 ++ R4 :: l2 ++ R3 :: l3.
Proof.
  destruct (sort_rowsets_ascending_comp_id [R3; R4]) as (_ & _ & _ & _ & Hafter).
  apply (Hafter R3 R4); try reflexivity.
  - apply elem_of_cons; by left.
  - apply elem_of_cons; right. apply elem_of_cons; by left.
Defined.

(** Two rowsets with comparison id 5 and different ids stay in the order
    they come in: the comparator looks at nothing but the comparison id, and
    the contract of [std::sort] admits either arrangement as the output. *)
Lemma sort_rowsets_tie_keeps_input_order :
  [R5; R6] ≡ₚ [R6; R5]
  ∧ comp_id (metadata R5) = comp_id (metadata R6)
  ∧ Rowset_id R5 ≠ Rowset_id R6
  ∧ sorted_rowsets [R5; R6] = [R5; R6]
  ∧ sorted_rowsets [R6; R5] = [R6; R5]
  ∧ sort_contract rowset_less [R5; R6] [R5; R6]
  ∧ sort_contract rowset_less [R5; R6] [R6; R5]
  ∧ ¬ sort_rowsets_ignores_input_order.
Proof.
  split; [apply perm_swap|]. split; [reflexivity|]. split; [by vm_compute|].
  split; [reflexivity|]. split; [reflexivity|].
  split; [split; [done|by repeat constructor]|].
  split; [split; [apply perm_swap|by repeat constructor]|].
  intros Hclaim. specialize (Hclaim [R5; R6] [R6; R5] (perm_swap _ _ _)).
  by vm_compute in Hclaim.
Qed.

(** C3, amended.  Whatever the arrangement of the input, [sort_rowsets]
    yields the same sequence of comparison ids; it yields the same sequence
    of rowsets when the comparison ids of the rowsets are pairwise
    distinct. *)
Theorem sort_rowsets_input_order (l1 l2 : list Rowset) :
  l1 ≡ₚ l2 →
  (comp_id ∘ metadata) <$> sorted_rowsets l1 = (comp_id ∘ metadata) <$> sorted_rowsets l2
  ∧ (NoDup ((comp_id ∘ metadata) <$> l1) → sorted_rowsets l1 = sorted_rowsets l2).
Proof.
  intros Hp.
  assert (sorted_rowsets l1 ≡ₚ sorted_rowsets l2) as Hps
    by (by rewrite !sorted_rowsets_Permutation).
  split.
  - apply sorted_comp_ids_unique; auto using sorted_rowsets_sorted.
  - intros Hnd. apply sorted_unique_distinct; auto using sorted_rowsets_sorted.
    by rewrite sorted_rowsets_Permutation.
Qed.

Lemma sort_rowsets_input_order_scenario_C :
  sorted_rowsets [R3; R4] = sorted_rowsets [R4; R3].
Proof.
  destruct (sort_rowsets_input_order [R3; R4] [R4; R3]) as [_ Heq].
  - apply perm_swap.
  - apply Heq. vm_compute. apply NoDup_cons_2; [|apply NoDup_singleton].
    intros Hin. apply list_elem_of_singleton in Hin. discriminate Hin.
Defined.

(** ** [rowset_iterator] *)

Section rowset_iterator_correct.
Context {Cache Store World : Type} {SL : SchemaLib} {ST : Storage Cache Store World}.
Implicit Types (s : @State Cache Store World SL) (pkey_schema : Schema).
Implicit Types (handler : @Handler Cache Store World SL ST).

(** The body of the loop. *)
Local Abbreviation body pkey_schema handler :=
  (λ rowset : Rowset,
     do_get_each_segment_iterator rowset pkey_schema ≫= do_handler handler rowset).

Lemma new_calls_app s s' cs : calls s' = calls s ++ cs → new_calls s s' = cs.
Proof. unfold new_calls. intros ->. by rewrite drop_app_length. Qed.

Lemma rowset_iterator_unfold pkey_schema handler s :
  rowset_iterator pkey_schema handler s
  = for_each (body pkey_schema handler)
      (sorted_rowsets (get_rowsets (_tablet s) (_metadata s))) s.
Proof. reflexivity. Qed.

(** One turn of the loop. *)
Lemma for_each_body_cons pkey_schema handler r rest s :
  for_each (body pkey_schema handler) (r :: rest) s
  = match get_each_segment_iterator r pkey_schema (world s) with
    | (Value itrs, w) =>
        let s1 := record_call (Call_get_each_segment_iterator r OK) (set_world w s) in
        match handler itrs [] [] (Rowset_id r) w with
        | (OK, w') =>
            for_each (body pkey_schema handler) rest
              (record_call (Call_handler r OK) (set_world w' s1))
        | (Error c msg, w') =>
            (NotOk c msg, record_call (Call_handler r (Error c msg)) (set_world w' s1))
        end
    | (NotOk c msg, w) =>
        (NotOk c msg,
         record_call (Call_get_each_segment_iterator r (Error c msg)) (set_world w s))
    end.
Proof.
  simpl. unfold mbind, M_bind, do_get_each_segment_iterator, do_handler.
  destruct (get_each_segment_iterator r pkey_schema (world s)) as [[itrs|c msg] w];
    simpl; [|done].
  by destruct (handler itrs [] [] (Rowset_id r) w) as [[|c msg] w'].
Qed.

Lemma loop_outcome_of_for_each pkey_schema handler rowsets s :
  ∃ cs, calls (for_each (body pkey_schema handler) rowsets s).2 = calls s ++ cs
        ∧ loop_outcome rowsets (for_each (body pkey_schema handler) rowsets s).1 cs.
Proof.
  revert s. induction rowsets as [|r rest IH]; intros s.
  - exists []. simpl. rewrite app_nil_r. split; [done|constructor].
  - rewrite for_each_body_cons.
    destruct (get_each_segment_iterator r pkey_schema (world s)) as [[itrs|c msg] w].
    + destruct (handler itrs [] [] (Rowset_id r) w) as [[|c msg] w']; simpl.
      * match goal with |- context [for_each _ rest ?s1] =>
          destruct (IH s1) as (cs & Hcs & Hout) end.
        exists (Call_get_each_segment_iterator r OK :: Call_handler r OK :: cs).
        split; [|by constructor].
        rewrite Hcs; simpl. by rewrite <- !app_assoc.
      * eexists. split; [|apply loop_handler_failed]. by rewrite <- app_assoc.
    + eexists. split; [|apply loop_open_failed]. done.
Qed.

Lemma rowset_iterator_outcome pkey_schema handler s :
  loop_outcome (sorted_rowsets (get_rowsets (_tablet s) (_metadata s)))
    (rowset_iterator pkey_schema handler s).1
    (new_calls s (rowset_iterator pkey_schema handler s).2).
Proof.
  rewrite rowset_iterator_unfold.
  destruct (loop_outcome_of_for_each pkey_schema handler
              (sorted_rowsets (get_rowsets (_tablet s) (_metadata s))) s)
    as (cs & Hcs & Hout).
  by rewrite (new_calls_app _ _ _ Hcs).
Qed.

(** The handler sees a prefix of the rowsets, one call per rowset. *)
Lemma loop_outcome_handled_prefix rowsets res cs :
  loop_outcome rowsets res cs → handled cs `prefix_of` rowsets.
Proof.
  induction 1; simpl.
  - done.
  - apply prefix_nil.
  - apply prefix_cons, prefix_nil.
  - by apply prefix_cons.
Qed.

(** When the k-th request for segment iterators fails, the loop ends with
    that error, having handled the k rowsets before and asked for the
    iterators of no rowset after. *)
Lemma loop_outcome_open_failed rowsets res cs k r c msg :
  loop_outcome rowsets res cs →
  opened cs !! k = Some (r, Error c msg) →
  res = NotOk c msg ∧ rowsets !! k = Some r
  ∧ handled cs = take k rowsets ∧ (opened cs).*1 = take (S k) rowsets.
Proof.
  intros Hout. revert k. induction Hout as [|r0 rest c0 m0|r0 rest c0 m0|r0 rest res cs Hout IH];
    intros k Hk; simpl in *.
  - done.
  - destruct k as [|k]; simpl in Hk; [|done].
    injection Hk as -> -> ->. by rewrite take_0.
  - destruct k as [|k]; simpl in Hk; done.
  - destruct k as [|k]; simpl in Hk; [done|].
    destruct (IH k Hk) as (-> & Hr & Hh & Ho). simpl.
    repeat split; [done|by f_equal|f_equal; exact Ho].
Qed.



(** C5.  When, in a run of [rowset_iterator], the k-th call of
    [get_each_segment_iterator] fails, [rowset_iterator] returns the
    status of that call; the call was for the k-th rowset of the sorted
    sequence; the handler was called for the k rowsets before it and for
    no other; and segment iterators were asked for those k rowsets and the
    k-th, and for no later one. *)
Theorem rowset_iterator_stops_at_open_failure pkey_schema handler s k r c msg :
  let rowsets := sorted_rowsets (get_rowsets (_tablet s) (_metadata s)) in
  let cs := new_calls s (rowset_iterator pkey_schema handler s).2 in
  opened cs !! k = Some (r, Error c msg) →
  status (rowset_iterator pkey_schema handler s).1 = Error c msg
  ∧ rowsets !! k = Some r
  ∧ handled cs = take k rowsets
  ∧ (opened cs).*1 = take (S k) rowsets.
Proof.
  intros rowsets cs Hk.
  destruct (loop_outcome_open_failed rowsets _ cs k r c msg
              (rowset_iterator_outcome pkey_schema handler s) Hk)
    as (Hres & Hr & Hh & Ho).
  by rewrite Hres.
Qed.
End rowset_iterator_correct.

(** *** [rowset_iterator] on the two rowsets of scenario C *)




Lemma rowset_iterator_stops_at_open_failure_scenario_C :
  let run := rowset_iterator (ST := example_storage true false false [7])
               example_pkey_schema accepting_handler (example_state [R3; R4]) in
  status run.1 = Error Corruption "segment"
  ∧ handled (new_calls (example_state [R3; R4]) run.2) = [R4].
Proof.
  destruct (rowset_iterator_stops_at_open_failure (ST := example_storage true false false [7])
              example_pkey_schema accepting_handler (example_state [R3; R4])
              1 R3 Corruption "segment")
    as (Hst & _ & Hhandled & _).
  - reflexivity.
  - cbv zeta in *. rewrite Hst, Hhandled. split; reflexivity.
Defined.

(** ** [pre_cleanup] *)

Section pre_cleanup_correct.
Context {Cache Store World : Type} {SL : SchemaLib} {ST : Storage Cache Store World}.
Implicit Types (s : @State Cache Store World SL).

(** [pre_cleanup], step by step. *)
Lemma pre_cleanup_unfold s :
  pre_cleanup s
  = let tablet_id := Tablet_id (_tablet s) in
    let s1 := after_reset s in
    match get_persistent_index_store tablet_id with
    | None => (Value tt, s1)
    | Some data_dir =>
        let removed := remove_tablet_persistent_index_meta data_dir tablet_id (index_store s) in
        let s2 := record_call
                    (Call_remove_tablet_persistent_index_meta data_dir tablet_id removed.1)
                    (set_index_store removed.2 s1) in
        match removed.1 with
        | Error c msg => (NotOk c msg, s2)
        | OK =>
            let path := tablet_pk_path_of data_dir tablet_id in
            let deleted := fs_remove_all path removed.2 in
            (of_status deleted.1,
             record_call (Call_remove_all path deleted.1) (set_index_store deleted.2 s2))
        end
    end.
Proof.
  unfold pre_cleanup, after_reset, mbind, M_bind, do_clear_delvec_meta,
    do_try_remove_primary_index_cache; simpl.
  destruct (try_remove_primary_index_cache _ _) as [evicted c]; simpl.
  destruct (get_persistent_index_store _) as [data_dir|]; simpl; [|done].
  unfold do_remove_tablet_persistent_index_meta, do_remove_all; simpl.
  destruct (remove_tablet_persistent_index_meta _ _ _) as [[|c0 msg] store]; simpl; [|done].
  by destruct (fs_remove_all _ _) as [[|c1 msg] store'].
Qed.

Lemma after_reset_calls s :
  calls (after_reset s)
  = calls s ++ [Call_clear_delvec_meta;
                Call_try_remove_primary_index_cache (Tablet_id (_tablet s))
                  (try_remove_primary_index_cache (Tablet_id (_tablet s)) (index_cache s)).1].
Proof. unfold after_reset; simpl. by rewrite <- app_assoc. Qed.

Lemma calls_record_call c s : calls (record_call c s) = calls s ++ [c].
Proof. done. Qed.
Lemma calls_set_index_store st s : calls (set_index_store st s) = calls s.
Proof. done. Qed.

(** The calls of [pre_cleanup]: the delvec meta is cleared, the cache
    eviction is tried, and only then come the calls on the persistent
    index store, if any. *)
Lemma pre_cleanup_calls s :
  ∃ rest,
    new_calls s (pre_cleanup s).2
    = Call_clear_delvec_meta
      :: Call_try_remove_primary_index_cache (Tablet_id (_tablet s))
           (try_remove_primary_index_cache (Tablet_id (_tablet s)) (index_cache s)).1
      :: rest
    ∧ Forall (λ c, touches_index_store c = true) rest
    ∧ (get_persistent_index_store (Tablet_id (_tablet s)) = None → rest = [])
    ∧ (∀ c msg,
         (∃ dir t, Call_remove_tablet_persistent_index_meta dir t (Error c msg) ∈ rest)
         ∨ (∃ path, Call_remove_all path (Error c msg) ∈ rest) →
         status (pre_cleanup s).1 = Error c msg).
Proof.
  rewrite pre_cleanup_unfold. cbv zeta.
  destruct (get_persistent_index_store _) as [data_dir|].
  - destruct (remove_tablet_persistent_index_meta _ _ _) as [[|c0 msg0] store];
      cbn [fst snd].
    + destruct (fs_remove_all _ _) as [st store']; cbn [fst snd].
      eexists. split.
      { apply new_calls_app.
        rewrite !calls_record_call, !calls_set_index_store, !calls_record_call,
          !calls_set_index_store, after_reset_calls.
        rewrite <- !app_assoc. simpl. reflexivity. }
      split; [by repeat constructor|]. split; [done|].
      intros c msg [(dir & t & Hin)|(path & Hin)].
      * apply elem_of_cons in Hin as [Hin|Hin]; [done|].
        apply list_elem_of_singleton in Hin. done.
      * apply elem_of_cons in Hin as [Hin|Hin]; [done|].
        apply list_elem_of_singleton in Hin. by injection Hin as _ <-.
    + eexists. split.
      { apply new_calls_app.
        rewrite !calls_record_call, !calls_set_index_store, after_reset_calls.
        rewrite <- !app_assoc. simpl. reflexivity. }
      split; [by repeat constructor|]. split; [done|].
      intros c msg [(dir & t & Hin)|(path & Hin)];
        apply list_elem_of_singleton in Hin; [|done].
      by injection Hin as _ _ -> ->.
  - exists []. split.
    { apply new_calls_app. cbn [snd]. by rewrite after_reset_calls. }
    split; [constructor|]. split; [done|].
    intros c msg [(dir & t & Hin)|(path & Hin)]; by apply elem_of_nil in Hin.
Qed.

Lemma pre_cleanup_clears_delvec_meta s :
  delvec_meta_opt (_metadata (pre_cleanup s).2) = None.
Proof.
  rewrite pre_cleanup_unfold. cbv zeta.
  destruct (get_persistent_index_store _) as [data_dir|]; [|done].
  by destruct (remove_tablet_persistent_index_meta _ _ _) as [[|c0 msg0] store].
Qed.

(** C6.  When no persistent index store is configured for the tablet,
    [pre_cleanup] returns OK; it makes no call on the persistent index
    store (neither the removal of the index meta nor the deletion of the
    files) and leaves the state of the store as it was. *)
Theorem pre_cleanup_without_store s :
  get_persistent_index_store (Tablet_id (_tablet s)) = None →
  status (pre_cleanup s).1 = OK
  ∧ Forall (λ c, touches_index_store c = false) (new_calls s (pre_cleanup s).2)
  ∧ index_store (pre_cleanup s).2 = index_store s.
Proof.
  intros Hnone.
  destruct (pre_cleanup_calls s) as (rest & Hcalls & _ & Hrest & _).
  rewrite Hcalls, (Hrest Hnone).
  rewrite pre_cleanup_unfold. cbv zeta. rewrite Hnone. simpl.
  split; [done|]. split; [by repeat constructor|done].
Qed.

(** What [pre_cleanup] leaves of the metadata and of the index cache,
    whatever it returns. *)
Lemma pre_cleanup_metadata_cache s :
  _metadata (pre_cleanup s).2 = clear_delvec_meta (_metadata s)
  ∧ index_cache (pre_cleanup s).2
    = (try_remove_primary_index_cache (Tablet_id (_tablet s)) (index_cache s)).2.
Proof.
  rewrite pre_cleanup_unfold. cbv zeta.
  destruct (get_persistent_index_store _) as [data_dir|]; [|done].
  by destruct (remove_tablet_persistent_index_meta _ _ _) as [[|c0 msg0] store].
Qed.

(** C9.  [pre_cleanup] clears the delvec meta of the metadata and calls
    the cache eviction before any call on the persistent index store: the
    first two calls are these, the cache is left as the eviction left it,
    and only calls on the store follow.  With a store configured, when the
    removal of the persistent index meta fails, [pre_cleanup] returns that
    error after these three calls; when the removal succeeds and the
    deletion of the index files fails, it returns that error after these
    four calls.  On both paths the metadata is the one it found with the
    delvec meta cleared: what the delvec meta held is not put back. *)
Theorem pre_cleanup_not_atomic s :
  let tablet_id := Tablet_id (_tablet s) in
  let evicted := try_remove_primary_index_cache tablet_id (index_cache s) in
  let cs := new_calls s (pre_cleanup s).2 in
  (∃ rest,
      cs = Call_clear_delvec_meta
           :: Call_try_remove_primary_index_cache tablet_id evicted.1
           :: rest
      ∧ Forall (λ c, touches_index_store c = true) rest)
  ∧ index_cache (pre_cleanup s).2 = evicted.2
  ∧ _metadata (pre_cleanup s).2 = clear_delvec_meta (_metadata s)
  ∧ delvec_meta_opt (_metadata (pre_cleanup s).2) = None
  ∧ (∀ data_dir,
       get_persistent_index_store tablet_id = Some data_dir →
       let removed :=
         remove_tablet_persistent_index_meta data_dir tablet_id (index_store s) in
       let path := tablet_pk_path_of data_dir tablet_id in
       let deleted := fs_remove_all path removed.2 in
       (∀ c msg,
          removed.1 = Error c msg →
          status (pre_cleanup s).1 = Error c msg
          ∧ cs = [Call_clear_delvec_meta;
                  Call_try_remove_primary_index_cache tablet_id evicted.1;
                  Call_remove_tablet_persistent_index_meta data_dir tablet_id
                    (Error c msg)]
          ∧ index_store (pre_cleanup s).2 = removed.2)
       ∧ (∀ c msg,
            removed.1 = OK → deleted.1 = Error c msg →
            status (pre_cleanup s).1 = Error c msg
            ∧ cs = [Call_clear_delvec_meta;
                    Call_try_remove_primary_index_cache tablet_id evicted.1;
                    Call_remove_tablet_persistent_index_meta data_dir tablet_id OK;
                    Call_remove_all path (Error c msg)]
            ∧ index_store (pre_cleanup s).2 = deleted.2)).
Proof.
  intros tablet_id evicted cs. subst tablet_id evicted cs.
  destruct (pre_cleanup_calls s) as (rest & Hcalls & Htouch & _).
  destruct (pre_cleanup_metadata_cache s) as (Hmeta & Hcache).
  split; [by exists rest|]. split; [done|]. split; [done|].
  split; [apply pre_cleanup_clears_delvec_meta|].
  intros data_dir Hstore. cbv zeta. split.
  - intros c msg Hfail.
    rewrite pre_cleanup_unfold. cbv zeta. rewrite Hstore, Hfail. cbn [fst snd].
    split; [done|]. split; [|done].
    apply new_calls_app.
    rewrite !calls_record_call, !calls_set_index_store, after_reset_calls.
    by rewrite <- !app_assoc.
  - intros c msg Hok Hfail.
    rewrite pre_cleanup_unfold. cbv zeta. rewrite Hstore, Hok. cbn [fst snd].
    rewrite Hfail. split; [done|]. split; [|done].
    apply new_calls_app.
    rewrite !calls_record_call, !calls_set_index_store, !calls_record_call,
      !calls_set_index_store, after_reset_calls.
    by rewrite <- !app_assoc.
Qed.
End pre_cleanup_correct.

(** C7.  The status [pre_cleanup] returns does not depend on the cache
    eviction: it is the same for every behaviour of
    [try_remove_primary_index_cache] and every state of the cache (an entry
    evicted, no entry to evict, an eviction that fails), and so are the
    metadata and the state of the persistent index store it leaves. *)
Theorem pre_cleanup_ignores_eviction {Cache Store World : Type} {SL : SchemaLib}
    (ST : Storage Cache Store World)
    (evict evict' : Z → Cache → bool * Cache) (cache' : Cache)
    (s : @State Cache Store World SL) :
  let run := pre_cleanup (ST := with_eviction evict ST) s in
  let run' := pre_cleanup (ST := with_eviction evict' ST) (set_index_cache cache' s) in
  status run.1 = status run'.1
  ∧ _metadata run.2 = _metadata run'.2
  ∧ index_store run.2 = index_store run'.2.
Proof.
  cbv zeta. rewrite !pre_cleanup_unfold. cbv zeta. simpl.
  destruct (get_persistent_index_store _) as [data_dir|]; [|done].
  destruct (remove_tablet_persistent_index_meta _ _ _) as [[|c0 msg0] store]; simpl; [|done].
  by destruct (fs_remove_all _ _) as [[|c1 msg1] store'].
Qed.

(** *** [pre_cleanup] on the example tablet *)

Lemma pre_cleanup_without_store_example :
  let run := pre_cleanup (ST := example_storage false false false []) (example_state []) in
  status run.1 = OK ∧ index_store run.2 = index_store (example_state []).
Proof.
  destruct (pre_cleanup_without_store (ST := example_storage false false false [])
              (example_state []))
    as (Hst & _ & Hstore).
  - reflexivity.
  - cbv zeta. by rewrite Hst, Hstore.
Defined.

Lemma pre_cleanup_not_atomic_example :
  let dir := {| get_persistent_index_path := "/data/persistent" |} in
  let run_meta := pre_cleanup (ST := example_storage true true false []) (example_state []) in
  let run_files := pre_cleanup (ST := example_storage true false true []) (example_state []) in
  delvec_meta_opt (_metadata (example_state [])) = Some {| delvecs := [(7, (0, 16))] |}
  ∧ (status run_meta.1 = Error IOError "rocksdb"
     ∧ new_calls (example_state []) run_meta.2
       = [Call_clear_delvec_meta;
          Call_try_remove_primary_index_cache 10001 true;
          Call_remove_tablet_persistent_index_meta dir 10001 (Error IOError "rocksdb")]
     ∧ delvec_meta_opt (_metadata run_meta.2) = None)
  ∧ (status run_files.1 = Error IOError "remove_all"
     ∧ new_calls (example_state []) run_files.2
       = [Call_clear_delvec_meta;
          Call_try_remove_primary_index_cache 10001 true;
          Call_remove_tablet_persistent_index_meta dir 10001 OK;
          Call_remove_all "/data/persistent/10001/" (Error IOError "remove_all")]
     ∧ delvec_meta_opt (_metadata run_files.2) = None).
Proof.
  intros dir run_meta run_files. split; [reflexivity|]. split.
  - destruct (pre_cleanup_not_atomic (ST := example_storage true true false [])
                (example_state []))
      as (_ & _ & _ & Hcleared & Hfail).
    destruct (Hfail dir eq_refl) as [Hmeta _].
    destruct (Hmeta IOError "rocksdb"%string eq_refl) as (Hst & Hcalls & _).
    subst run_meta. rewrite Hst, Hcalls, Hcleared. repeat split.
  - destruct (pre_cleanup_not_atomic (ST := example_storage true false true [])
                (example_state []))
      as (_ & _ & _ & Hcleared & Hfail).
    destruct (Hfail dir eq_refl) as [_ Hfiles].
    destruct (Hfiles IOError "remove_all"%string eq_refl eq_refl) as (Hst & Hcalls & _).
    subst run_files. rewrite Hst, Hcalls, Hcleared. repeat split.
Defined.

(** ** [finalize_delvec] *)

Section finalize_delvec_correct.
Context {Cache Store World : Type} {SL : SchemaLib}.
Implicit Types (s : @State Cache Store World SL).

Lemma finalize_loop (entries : list (N * list N)) s :
  let run := for_each (λ (new_delete : N * list N) s',
                do_append_delvec
                  (DelVector_init (version (_metadata s')) new_delete.2) new_delete.1 s')
               entries s in
  run.1 = Value tt
  ∧ queued_delvecs (_builder run.2)
    = queued_delvecs (_builder s) ++ (delvec_of (version (_metadata s)) <$> entries)
  ∧ _metadata run.2 = _metadata s.
Proof.
  revert s. induction entries as [|[k ids] entries IH]; intros s; simpl.
  - by rewrite app_nil_r.
  - unfold mbind, M_bind, do_append_delvec at 1. simpl.
    match goal with |- context [for_each _ entries ?s1] =>
      destruct (IH s1) as (Hres & Hq & Hm) end.
    rewrite Hres, Hq, Hm. simpl. by rewrite <- app_assoc.
Qed.

Lemma filter_key_absent {A} (l : list (N * A)) k :
  k ∉ l.*1 → filter (λ e, e.1 = k) l = [].
Proof.
  induction l as [|[k' x'] l IH]; simpl; intros Hk; [done|].
  apply not_elem_of_cons in Hk as [Hne Hk].
  rewrite filter_cons_False; [by apply IH|]. simpl. congruence.
Qed.

(** In a list whose keys are pairwise distinct, the entries under one key
    are the one entry found there. *)
Lemma filter_key_NoDup {A} (l : list (N * A)) k x :
  NoDup l.*1 → (k, x) ∈ l → filter (λ e, e.1 = k) l = [(k, x)].
Proof.
  induction l as [|[k' x'] l IH]; simpl; intros Hnd Hin; [by apply elem_of_nil in Hin|].
  apply NoDup_cons in Hnd as [Hk' Hnd].
  apply elem_of_cons in Hin as [Heq|Hin].
  - injection Heq as <- <-. rewrite filter_cons_True by done. f_equal.
    by apply filter_key_absent.
  - rewrite filter_cons_False; [by apply IH|].
    simpl. intros ->. apply Hk'. apply list_elem_of_fmap. by exists (k, x).
Qed.

Lemma DelVector_init_sorted v del_ids :
  dv_version (DelVector_init v del_ids) = v
  ∧ dv_rowids (DelVector_init v del_ids) ≡ₚ del_ids
  ∧ StronglySorted N.le (dv_rowids (DelVector_init v del_ids)).
Proof.
  simpl. split; [done|]. split.
  - apply merge_sort_Permutation.
  - apply (StronglySorted_merge_sort N.le).
Qed.

(** C4.  [finalize_delvec] returns OK and appends to the metadata builder
    one DelVector for each rowset id of the DeletesMap, and so exactly one
    for each rowset id with a non-empty delete set: it carries the version
    of the metadata and the row ids of that rowset, sorted ascending.  For
    a rowset id that is not in the DeletesMap nothing is appended. *)
Theorem finalize_delvec_one_per_rowset (new_deletes : DeletesMap) s :
  ∃ appended : list (N * DelVector),
    status (finalize_delvec new_deletes s).1 = OK
    ∧ queued_delvecs (_builder (finalize_delvec new_deletes s).2)
      = queued_delvecs (_builder s) ++ appended
    ∧ (∀ rowset_id del_ids,
         new_deletes !! rowset_id = Some del_ids →
         ∃ delvec,
           filter (λ e, e.1 = rowset_id) appended = [(rowset_id, delvec)]
           ∧ dv_version delvec = version (_metadata s)
           ∧ dv_rowids delvec ≡ₚ del_ids
           ∧ StronglySorted N.le (dv_rowids delvec))
    ∧ (∀ rowset_id,
         new_deletes !! rowset_id = None →
         filter (λ e, e.1 = rowset_id) appended = []).
Proof.
  exists (delvec_of (version (_metadata s)) <$> map_to_list new_deletes).
  unfold finalize_delvec.
  destruct (finalize_loop (map_to_list new_deletes) s) as (Hres & Hq & _).
  rewrite Hres, Hq. split; [done|]. split; [done|].
  assert ((delvec_of (version (_metadata s)) <$> map_to_list new_deletes).*1
          = (map_to_list new_deletes).*1) as Hkeys.
  { rewrite <- list_fmap_compose. by apply list_fmap_ext. }
  split.
  - intros rowset_id del_ids Hlookup.
    exists (DelVector_init (version (_metadata s)) del_ids).
    split; [|apply DelVector_init_sorted].
    apply filter_key_NoDup.
    + rewrite Hkeys. apply NoDup_fst_map_to_list.
    + apply list_elem_of_fmap. exists (rowset_id, del_ids).
      split; [done|]. by apply elem_of_map_to_list.
  - intros rowset_id Hlookup. apply filter_key_absent.
    rewrite Hkeys. intros Hin. apply list_elem_of_fmap in Hin as ([k ids] & -> & Hin).
    apply elem_of_map_to_list in Hin. simpl in *. congruence.
Qed.
End finalize_delvec_correct.

(** Scenario A of the design document: row 0 of rowset 1 is superseded. *)
Lemma finalize_delvec_one_per_rowset_scenario_A :
  let run := finalize_delvec ({[ 1 := [0] ]} : DeletesMap) (example_state [R3; R4]) in
  ∃ appended,
    queued_delvecs (_builder run.2) = appended
    ∧ filter (λ e, e.1 = 1) appended = [(1, {| dv_version := 12; dv_rowids := [0] |})]
    ∧ filter (λ e, e.1 = 2) appended = [].
Proof.
  cbv zeta.
  destruct (finalize_delvec_one_per_rowset {[ 1 := [0] ]} (example_state [R3; R4]))
    as (appended & _ & Hq & Hsome & Hnone).
  exists appended. split; [by rewrite Hq|]. split.
  - destruct (Hsome 1 [0]) as ([v ids] & Hf & Hv & Hp & _); [done|].
    simpl in Hv, Hp. subst v. apply Permutation_singleton_r in Hp. by subst ids.
  - by apply Hnone.
Defined.

(** ** [generate_pkey_schema] *)

Section generate_pkey_schema_correct.
Context {Cache Store World : Type} {SL : SchemaLib}.
Implicit Types (s : @State Cache Store World SL).

Lemma to_size_t_small (i : nat) :
  (Z.of_nat i ≤ INT_MAX)%Z → to_size_t (Z.of_nat i) = N.of_nat i.
Proof.
  unfold to_size_t, INT_MAX. intros Hi.
  rewrite Z.mod_small by lia. lia.
Qed.

Lemma to_ColumnId_small (i : nat) :
  (Z.of_nat i ≤ INT_MAX)%Z → to_ColumnId (Z.of_nat i) = N.of_nat i.
Proof.
  unfold to_ColumnId, INT_MAX. intros Hi.
  rewrite Z.mod_small by lia. lia.
Qed.

(** The loop, entered with [i] columns filled and [k] to go. *)
Lemma fill_pk_columns_from (k : nat) : ∀ (fuel i : nat) (n : N) (pk_columns : list N),
  (i + k)%nat = N.to_nat n → (Z.of_N n ≤ INT_MAX)%Z →
  (k ≤ fuel)%nat → length pk_columns = N.to_nat n →
  fill_pk_columns fuel n (Z.of_nat i) pk_columns
  = Some (take i pk_columns ++ (N.of_nat <$> seq i k)).
Proof.
  induction k as [|k IH]; intros fuel i n pk_columns Hik Hn Hfuel Hlen.
  - assert ((to_size_t (Z.of_nat i) <? n) = false) as Hcond.
    { rewrite to_size_t_small by lia. apply N.ltb_ge. lia. }
    destruct fuel; simpl; rewrite Hcond; simpl;
      by rewrite app_nil_r, take_ge by lia.
  - destruct fuel as [|fuel]; [lia|]. simpl.
    assert ((to_size_t (Z.of_nat i) <? n) = true) as ->.
    { rewrite to_size_t_small by lia. apply N.ltb_lt. lia. }
    assert ((Z.of_nat i + 1 <=? INT_MAX)%Z = true) as -> by (apply Z.leb_le; lia).
    rewrite to_ColumnId_small by lia. rewrite Nat2Z.id.
    replace (Z.of_nat i + 1)%Z with (Z.of_nat (S i)) by lia.
    rewrite IH; [|lia|done|lia|by rewrite length_insert].
    f_equal. rewrite (take_S_r _ _ (N.of_nat i)).
    + rewrite take_insert_ge by lia. by rewrite <- app_assoc.
    + apply list_lookup_insert_eq. lia.
Qed.

(** C10.  Provided the number of key columns fits the [int] that counts
    them, [generate_pkey_schema] converts the tablet schema with the
    column ids 0, 1, ..., num_key_columns - 1, in this order: the key
    columns are taken to be the first columns of the schema.  Its result
    is the same for two metadata with the same schema. *)
Theorem generate_pkey_schema_first_columns s :
  let tablet_schema := make_TabletSchema (schema (_metadata s)) in
  (Z.of_N (num_key_columns tablet_schema) ≤ INT_MAX)%Z →
  generate_pkey_schema s
  = Some (convert_schema tablet_schema (first_column_ids (num_key_columns tablet_schema)))
  ∧ (∀ i, i < num_key_columns tablet_schema →
          first_column_ids (num_key_columns tablet_schema) !! N.to_nat i = Some i)
  ∧ length (first_column_ids (num_key_columns tablet_schema))
    = N.to_nat (num_key_columns tablet_schema)
  ∧ (∀ s', schema (_metadata s') = schema (_metadata s) →
           generate_pkey_schema s' = generate_pkey_schema s).
Proof.
  intros tablet_schema Hn. split; [|split; [|split]].
  - unfold generate_pkey_schema. fold tablet_schema.
    rewrite (fill_pk_columns_from (N.to_nat (num_key_columns tablet_schema))
               _ 0 (num_key_columns tablet_schema));
      [done|done|done|done|by rewrite length_replicate].
  - intros i Hi. unfold first_column_ids.
    rewrite list_lookup_fmap, lookup_seq_lt by lia. simpl. f_equal. lia.
  - unfold first_column_ids. by rewrite length_fmap, length_seq.
  - intros s' Hs'. unfold generate_pkey_schema. by rewrite Hs'.
Qed.
End generate_pkey_schema_correct.

(** The example tablet has the two key columns k1 and k2. *)
Lemma generate_pkey_schema_first_columns_example :
  generate_pkey_schema (example_state []) = Some example_pkey_schema.
Proof.
  destruct (generate_pkey_schema_first_columns (example_state [])) as (Hgen & _).
  - vm_compute. discriminate.
  - rewrite Hgen. reflexivity.
Defined.

(** ** Hashed slices *)

Section hash_set_correct.
Context {HL : SliceHashLib}.
Import HashSet.

Lemma length_read mem p n : length (read mem p n) = n.
Proof. revert p. induction n as [|n IH]; intros p; simpl; [done|by rewrite IH]. Qed.

Lemma memcmp_eq_read mem n : ∀ p1 p2,
  memcmp_eq mem p1 p2 n = true ↔ read mem p1 n = read mem p2 n.
Proof.
  induction n as [|n IH]; intros p1 p2; simpl; [done|].
  rewrite andb_true_iff, IH. split.
  - intros [Hb Hrest]. apply Byte.byte_dec_bl in Hb. by rewrite Hb, Hrest.
  - intros Heq. injection Heq as Hb Hrest. split; [by apply Byte.byte_dec_lb|done].
Qed.

(** [memequal] compares what the two slices denote. *)
Lemma memequal_contents mem (x y : Slice) :
  memequal mem (data x) (size x) (data y) (size y) = true
  ↔ contents mem x = contents mem y.
Proof.
  unfold memequal, contents. rewrite andb_true_iff, N.eqb_eq, memcmp_eq_read. split.
  - by intros [-> ->].
  - intros Heq.
    assert (size x = size y) as Hsize.
    { apply (f_equal length) in Heq. rewrite !length_read in Heq. lia. }
    split; [done|]. by rewrite Heq, Hsize.
Qed.

(** C8.  Two elements built from slices by the constructor that computes
    the hash ([SliceWithHash], or [TSliceWithHash] with one seed) are
    equal for [EqualOnSliceWithHash] (for [TEqualOnSliceWithHash]) exactly
    when the slices hold the same bytes: equal bytes have equal hashes,
    and with equal hashes the comparison of the bytes decides. *)
Theorem EqualOnSliceWithHash_iff_same_bytes (mem : Memory) (a b : Slice) (seed : PhmapSeed) :
  (EqualOnSliceWithHash mem (SliceWithHash_of_Slice mem a) (SliceWithHash_of_Slice mem b)
   = true ↔ contents mem a = contents mem b)
  ∧ (TEqualOnSliceWithHash mem (TSliceWithHash_of_Slice seed mem a)
       (TSliceWithHash_of_Slice seed mem b)
     = true ↔ contents mem a = contents mem b).
Proof.
  unfold EqualOnSliceWithHash, TEqualOnSliceWithHash; simpl.
  rewrite !andb_true_iff, !N.eqb_eq.
  rewrite (memequal_contents mem {| data := data a; size := size a |}
             {| data := data b; size := size b |}).
  unfold SliceHash, SliceHashWithSeed, contents; simpl.
  split; (split; [by intros [_ ?]|intros Heq; split; [by rewrite Heq|done]]).
Qed.

(** With the constructor that takes the hash from the caller, equal bytes
    are told apart when the hashes given differ. *)
Lemma EqualOnSliceWithHash_given_hash mem p s h1 h2 :
  h1 ≠ h2 →
  EqualOnSliceWithHash mem (SliceWithHash_of_parts p s h1) (SliceWithHash_of_parts p s h2)
  = false.
Proof.
  intros Hne. unfold EqualOnSliceWithHash; simpl.
  apply andb_false_iff. left. by apply N.eqb_neq.
Qed.
End hash_set_correct.

(* ===================================================================== *)
(** * Part III: further properties of the code                            *)
(* ===================================================================== *)

(** ** The comparator of [sort_rowsets] *)

(** X1.  The lambda that [sort_rowsets] gives to [std::sort] is a strict
    weak ordering, which [std::sort] requires of its comparator: it is
    irreflexive, asymmetric and transitive, and being unordered by it is
    transitive too; two rowsets are unordered exactly when they have the
    same comparison id. *)
Theorem rowset_less_strict_weak_ordering (a b c : Rowset) :
  rowset_less a a = false
  ∧ (rowset_less a b = true → rowset_less b a = false)
  ∧ (rowset_less a b = true → rowset_less b c = true → rowset_less a c = true)
  ∧ (rowset_less a b = false → rowset_less b a = false →
     rowset_less b c = false → rowset_less c b = false →
     rowset_less a c = false ∧ rowset_less c a = false)
  ∧ (rowset_less a b = false ∧ rowset_less b a = false
     ↔ comp_id (metadata a) = comp_id (metadata b)).
Proof.
  split; [apply rowset_less_false; lia|].
  split; [apply rowset_less_asym|].
  split; [rewrite !rowset_less_spec; lia|].
  split; [rewrite !rowset_less_false; lia|].
  rewrite !rowset_less_false. lia.
Qed.

Lemma rowset_less_strict_weak_ordering_ties :
  rowset_less R5 R6 = false ∧ rowset_less R6 R5 = false
  ∧ rowset_less R4 R3 = true ∧ rowset_less R3 R4 = false.
Proof.
  destruct (rowset_less_strict_weak_ordering R5 R6 R5) as (_ & _ & _ & _ & Htie).
  destruct (rowset_less_strict_weak_ordering R4 R3 R4) as (_ & Hasym & _).
  split; [by apply Htie|]. split; [by apply Htie|].
  split; [reflexivity|]. by apply Hasym.
Defined.

(** ** [sort_rowsets] on particular inputs *)

Lemma StronglySorted_impl_elem {A} (R R' : relation A) (l : list A) :
  (∀ x y, x ∈ l → y ∈ l → R x y → R' x y) → StronglySorted R l → StronglySorted R' l.
Proof.
  intros Himpl Hs. induction Hs as [|x l Hs IH Hx]; constructor.
  - apply IH. intros y z Hy Hz. apply Himpl; by right.
  - apply Forall_forall. intros y Hy. apply Himpl; [by left|by right|].
    by eapply Forall_forall in Hx.
Qed.

(** X2.  When no rowset has been generated by compaction, [sort_rowsets]
    leaves the rowsets in ascending order of their own ids. *)
Theorem sort_rowsets_without_lineage (rowsets : list Rowset) :
  (∀ r, r ∈ rowsets → max_compact_input_rowset_id_opt (metadata r) = None) →
  StronglySorted by_rowset_id (sorted_rowsets rowsets).
Proof.
  intros Hnone.
  assert (∀ r, r ∈ sorted_rowsets rowsets → comp_id (metadata r) = Rowset_id r) as Hid.
  { intros [[i segs lineage]] Hr. rewrite sorted_rowsets_Permutation in Hr.
    apply Hnone in Hr. simpl in Hr. by subst lineage. }
  eapply StronglySorted_impl_elem; [|apply sorted_rowsets_sorted].
  intros x y Hx Hy. simpl. by rewrite (Hid x Hx), (Hid y Hy).
Qed.

Lemma sort_rowsets_without_lineage_example :
  StronglySorted by_rowset_id (sorted_rowsets [R4; R5]).
Proof.
  apply (sort_rowsets_without_lineage [R4; R5]).
  intros r Hr. apply elem_of_cons in Hr as [->|Hr]; [done|].
  apply list_elem_of_singleton in Hr. by subst r.
Defined.

(** X3.  When the comparison ids of the rowsets are pairwise distinct,
    [sort_rowsets] leaves a list that is already in ascending order as it
    is, and sorting a second time changes nothing. *)
Theorem sort_rowsets_sorted_input (rowsets : list Rowset) :
  NoDup ((comp_id ∘ metadata) <$> rowsets) →
  (StronglySorted by_comp_id rowsets → sorted_rowsets rowsets = rowsets)
  ∧ sorted_rowsets (sorted_rowsets rowsets) = sorted_rowsets rowsets.
Proof.
  intros Hnd. split.
  - intros Hs. symmetry. apply sorted_unique_distinct; try done.
    + apply sorted_rowsets_sorted.
    + by rewrite sorted_rowsets_Permutation.
  - apply sorted_unique_distinct.
    + by rewrite !sorted_rowsets_Permutation.
    + apply sorted_rowsets_sorted.
    + apply sorted_rowsets_sorted.
    + by rewrite !sorted_rowsets_Permutation.
Qed.

Lemma sort_rowsets_sorted_input_scenario_C :
  sorted_rowsets [R4; R3] = [R4; R3].
Proof.
  destruct (sort_rowsets_sorted_input [R4; R3]) as [Hsame _].
  - vm_compute. apply NoDup_cons_2; [|apply NoDup_singleton].
    intros Hin. apply list_elem_of_singleton in Hin. discriminate Hin.
  - apply Hsame. repeat constructor. vm_compute. discriminate.
Defined.

(** ** More on [rowset_iterator] *)

Section rowset_iterator_more.
Context {Cache Store World : Type} {SL : SchemaLib} {ST : Storage Cache Store World}.
Implicit Types (s : @State Cache Store World SL) (pkey_schema : Schema).
Implicit Types (handler : @Handler Cache Store World SL ST).

Local Abbreviation body pkey_schema handler :=
  (λ rowset : Rowset,
     do_get_each_segment_iterator rowset pkey_schema ≫= do_handler handler rowset).

(** What a loop that ends well has done. *)
Lemma loop_outcome_ok rowsets res cs :
  loop_outcome rowsets res cs → res = Value tt →
  handled cs = rowsets
  ∧ opened cs = (λ r, (r, OK)) <$> rowsets
  ∧ handler_calls cs = (λ r, (r, OK)) <$> rowsets.
Proof.
  induction 1 as [|r rest c msg|r rest c msg|r rest res cs Hout IH]; intros Hres;
    try done.
  destruct (IH Hres) as (Hh & Ho & Hc). simpl. by rewrite Hh, Ho, Hc.
Qed.


(** When the k-th call of the handler fails. *)
Lemma loop_outcome_handler_failed rowsets res cs k r c msg :
  loop_outcome rowsets res cs →
  handler_calls cs !! k = Some (r, Error c msg) →
  res = NotOk c msg ∧ rowsets !! k = Some r
  ∧ handled cs = take (S k) rowsets
  ∧ opened cs = (λ r, (r, OK)) <$> take (S k) rowsets.
Proof.
  intros Hout. revert k.
  induction Hout as [|r0 rest c0 m0|r0 rest c0 m0|r0 rest res cs Hout IH];
    intros k Hk; simpl in *.
  - done.
  - done.
  - destruct k as [|k]; simpl in Hk; [|done].
    injection Hk as -> -> ->. by rewrite take_0.
  - destruct k as [|k]; simpl in Hk; [done|].
    destruct (IH k Hk) as (-> & Hr & Hh & Ho).
    repeat split; [done|by f_equal|by rewrite Ho].
Qed.

(** X6.  When, in a run of [rowset_iterator], the k-th call of the handler
    fails, [rowset_iterator] returns the status of that call; the call was
    for the k-th rowset of the sorted sequence; the handler was called for
    that rowset and the k before it; segment iterators were requested,
    with success, for the same rowsets and for no later one. *)
Theorem rowset_iterator_stops_at_handler_failure pkey_schema handler s k r c msg :
  let rowsets := sorted_rowsets (get_rowsets (_tablet s) (_metadata s)) in
  let cs := new_calls s (rowset_iterator pkey_schema handler s).2 in
  handler_calls cs !! k = Some (r, Error c msg) →
  status (rowset_iterator pkey_schema handler s).1 = Error c msg
  ∧ rowsets !! k = Some r
  ∧ handled cs = take (S k) rowsets
  ∧ opened cs = (λ r, (r, OK)) <$> take (S k) rowsets.
Proof.
  intros rowsets cs Hk.
  destruct (loop_outcome_handler_failed rowsets _ cs k r c msg
              (rowset_iterator_outcome pkey_schema handler s) Hk)
    as (Hres & Hr & Hh & Ho).
  by rewrite Hres.
Qed.



(** Two handlers that answer alike on what the loop gives them make the
    same loop. *)
Lemma for_each_body_handler_ext pkey_schema handler handler' rowsets s :
  (∀ r itrs w, r ∈ rowsets →
     handler itrs [] [] (Rowset_id r) w = handler' itrs [] [] (Rowset_id r) w) →
  for_each (body pkey_schema handler) rowsets s
  = for_each (body pkey_schema handler') rowsets s.
Proof.
  revert s. induction rowsets as [|r rest IH]; intros s Hext; [done|].
  rewrite !for_each_body_cons.
  destruct (get_each_segment_iterator r pkey_schema (world s)) as [[itrs|c msg] w]; [|done].
  rewrite <- (Hext r itrs w) by (by left).
  destruct (handler itrs [] [] (Rowset_id r) w) as [[|c msg] w']; [|done].
  apply IH. intros r' itrs' w0 Hr'. apply Hext. by right.
Qed.

(** X8.  [rowset_iterator] calls the handler with no file, no row id
    list, and the own id of a rowset of the snapshot (not its comparison
    id), and in no other way: two handlers that answer alike on such
    arguments make the same run. *)
Theorem rowset_iterator_handler_arguments pkey_schema handler handler' s :
  (∀ r itrs w, r ∈ get_rowsets (_tablet s) (_metadata s) →
     handler itrs [] [] (Rowset_id r) w = handler' itrs [] [] (Rowset_id r) w) →
  rowset_iterator pkey_schema handler s = rowset_iterator pkey_schema handler' s.
Proof.
  intros Hext. rewrite !rowset_iterator_unfold.
  apply for_each_body_handler_ext. intros r itrs w Hr. apply Hext.
  by rewrite <- (sorted_rowsets_Permutation (get_rowsets (_tablet s) (_metadata s))).
Qed.
End rowset_iterator_more.

(** *** The further properties on the two rowsets of scenario C *)


Lemma rowset_iterator_stops_at_handler_failure_scenario_C :
  let run := rowset_iterator (ST := example_storage true false false [])
               example_pkey_schema rejecting_handler (example_state [R3; R4]) in
  status run.1 = Error InternalError "handler"
  ∧ opened (new_calls (example_state [R3; R4]) run.2) = [(R4, OK)].
Proof.
  destruct (rowset_iterator_stops_at_handler_failure
              (ST := example_storage true false false [])
              example_pkey_schema rejecting_handler (example_state [R3; R4])
              0 R4 InternalError "handler")
    as (Hst & _ & _ & Hopened).
  - reflexivity.
  - cbv zeta in *. rewrite Hst, Hopened. split; reflexivity.
Defined.

Lemma rowset_iterator_handler_arguments_scenario_C :
  rowset_iterator (ST := example_storage true false false [])
    example_pkey_schema accepting_handler (example_state [R3; R4])
  = rowset_iterator (ST := example_storage true false false [])
      example_pkey_schema picky_handler (example_state [R3; R4]).
Proof.
  apply (rowset_iterator_handler_arguments (ST := example_storage true false false [])).
  intros r itrs w _. reflexivity.
Defined.

(** ** More on [pre_cleanup] *)

Section pre_cleanup_more.
Context {Cache Store World : Type} {SL : SchemaLib} {ST : Storage Cache Store World}.
Implicit Types (s : @State Cache Store World SL).

Lemma after_reset_fields s :
  _tablet (after_reset s) = _tablet s
  ∧ _metadata (after_reset s) = clear_delvec_meta (_metadata s)
  ∧ _builder (after_reset s) = _builder s
  ∧ world (after_reset s) = world s
  ∧ index_store (after_reset s) = index_store s
  ∧ index_cache (after_reset s)
    = (try_remove_primary_index_cache (Tablet_id (_tablet s)) (index_cache s)).2.
Proof. done. Qed.

(** The fields that [pre_cleanup] leaves alone, whatever it returns. *)
Lemma pre_cleanup_fields s :
  let s' := (pre_cleanup s).2 in
  _metadata s' = clear_delvec_meta (_metadata s)
  ∧ _tablet s' = _tablet s ∧ _builder s' = _builder s
  ∧ world s' = world s
  ∧ index_cache s'
    = (try_remove_primary_index_cache (Tablet_id (_tablet s)) (index_cache s)).2.
Proof.
  cbv zeta. rewrite pre_cleanup_unfold. cbv zeta.
  destruct (get_persistent_index_store _) as [data_dir|]; [|done].
  by destruct (remove_tablet_persistent_index_meta _ _ _) as [[|c0 msg0] store].
Qed.

(** X9.  Whether it succeeds or fails, [pre_cleanup] leaves the metadata
    as it was but for the delvec meta, which is cleared: version, schema
    and rowsets are kept.  It leaves the tablet, the builder and the world
    of the segment readers alone, and the index cache as the eviction left
    it.  A second [pre_cleanup] leaves the same metadata as the first. *)
Theorem pre_cleanup_frame s :
  let s' := (pre_cleanup s).2 in
  _metadata s' = clear_delvec_meta (_metadata s)
  ∧ version (_metadata s') = version (_metadata s)
  ∧ schema (_metadata s') = schema (_metadata s)
  ∧ rowsets (_metadata s') = rowsets (_metadata s)
  ∧ _tablet s' = _tablet s
  ∧ _builder s' = _builder s
  ∧ world s' = world s
  ∧ index_cache s'
    = (try_remove_primary_index_cache (Tablet_id (_tablet s)) (index_cache s)).2
  ∧ _metadata (pre_cleanup s').2 = _metadata s'.
Proof.
  cbv zeta. destruct (pre_cleanup_fields s) as (Hm & Ht & Hb & Hw & Hc).
  cbv zeta in *. rewrite Hm. repeat (split; [done|]).
  destruct (pre_cleanup_fields (pre_cleanup s).2) as (Hm' & _).
  cbv zeta in *. by rewrite Hm', Hm.
Qed.

(** X10.  With a persistent index store configured, when the removal of
    the persistent index meta fails, [pre_cleanup] returns that error at
    once: [fs::remove_all] is not called, so the index files stay, and the
    store is left as the failed removal left it. *)
Theorem pre_cleanup_meta_failure_skips_files s data_dir c msg :
  let tablet_id := Tablet_id (_tablet s) in
  let removed := remove_tablet_persistent_index_meta data_dir tablet_id (index_store s) in
  get_persistent_index_store tablet_id = Some data_dir →
  removed.1 = Error c msg →
  status (pre_cleanup s).1 = Error c msg
  ∧ new_calls s (pre_cleanup s).2
    = [Call_clear_delvec_meta;
       Call_try_remove_primary_index_cache tablet_id
         (try_remove_primary_index_cache tablet_id (index_cache s)).1;
       Call_remove_tablet_persistent_index_meta data_dir tablet_id (Error c msg)]
  ∧ index_store (pre_cleanup s).2 = removed.2.
Proof.
  intros tablet_id removed Hstore Hfail. subst tablet_id removed.
  rewrite pre_cleanup_unfold. cbv zeta. rewrite Hstore, Hfail. cbn [fst snd].
  split; [done|]. split; [|done].
  apply new_calls_app.
  rewrite !calls_record_call, !calls_set_index_store, after_reset_calls.
  by rewrite <- !app_assoc.
Qed.

(** X11.  With a persistent index store configured, when the removal of
    the persistent index meta succeeds, [pre_cleanup] goes on to delete
    the directory [<persistent index path>/<tablet id>/] with
    [fs::remove_all], on the store as the removal of the meta left it, and
    returns the status of that deletion.  It makes these four calls, in
    this order, and no other. *)
Theorem pre_cleanup_with_store s data_dir :
  let tablet_id := Tablet_id (_tablet s) in
  let removed := remove_tablet_persistent_index_meta data_dir tablet_id (index_store s) in
  let path := get_persistent_index_path data_dir +:+ "/" +:+ pretty tablet_id +:+ "/" in
  let deleted := fs_remove_all path removed.2 in
  get_persistent_index_store tablet_id = Some data_dir →
  removed.1 = OK →
  status (pre_cleanup s).1 = deleted.1
  ∧ new_calls s (pre_cleanup s).2
    = [Call_clear_delvec_meta;
       Call_try_remove_primary_index_cache tablet_id
         (try_remove_primary_index_cache tablet_id (index_cache s)).1;
       Call_remove_tablet_persistent_index_meta data_dir tablet_id OK;
       Call_remove_all path deleted.1]
  ∧ index_store (pre_cleanup s).2 = deleted.2.
Proof.
  intros tablet_id removed path deleted Hstore Hok. subst tablet_id removed path deleted.
  rewrite pre_cleanup_unfold. cbv zeta. rewrite Hstore, Hok. cbn [fst snd].
  fold (tablet_pk_path_of data_dir (Tablet_id (_tablet s))).
  split; [by destruct (fs_remove_all _ _).1|]. split; [|done].
  apply new_calls_app.
  rewrite !calls_record_call, !calls_set_index_store, !calls_record_call,
    !calls_set_index_store, after_reset_calls.
  by rewrite <- !app_assoc.
Qed.
End pre_cleanup_more.

Lemma string_app_slash_inj (a b : string) : a +:+ "/" = b +:+ "/" → a = b.
Proof.
  revert b. induction a as [|x a IH]; intros [|y b]; simpl; intros Heq.
  - done.
  - injection Heq as _ Heq. by destruct b.
  - injection Heq as _ Heq. by destruct a.
  - injection Heq as -> Heq. f_equal. by apply IH.
Qed.

(** X12.  Under one data directory, the directory that [pre_cleanup]
    deletes is another for every tablet id: the cleanup of one tablet does
    not name the index directory of another. *)
Theorem tablet_pk_path_of_inj (data_dir : DataDir) (tablet_id1 tablet_id2 : Z) :
  tablet_id1 ≠ tablet_id2 →
  tablet_pk_path_of data_dir tablet_id1 ≠ tablet_pk_path_of data_dir tablet_id2.
Proof.
  unfold tablet_pk_path_of. intros Hne Heq. apply Hne.
  apply (inj (String.app _)) in Heq. apply (inj (String.app _)) in Heq.
  apply string_app_slash_inj in Heq. by apply (inj pretty) in Heq.
Qed.

Lemma tablet_pk_path_of_inj_example :
  tablet_pk_path_of {| get_persistent_index_path := "/data/persistent" |} 1
  ≠ tablet_pk_path_of {| get_persistent_index_path := "/data/persistent" |} 10.
Proof.
  apply (tablet_pk_path_of_inj {| get_persistent_index_path := "/data/persistent" |} 1 10).
  discriminate.
Defined.

Lemma pre_cleanup_meta_failure_skips_files_example :
  let run := pre_cleanup (ST := example_storage true true false []) (example_state []) in
  status run.1 = Error IOError "rocksdb"
  ∧ Forall (λ c, c ≠ Call_remove_all "/data/persistent/10001/" OK)
      (new_calls (example_state []) run.2).
Proof.
  destruct (pre_cleanup_meta_failure_skips_files
              (ST := example_storage true true false []) (example_state [])
              {| get_persistent_index_path := "/data/persistent" |} IOError "rocksdb")
    as (Hst & Hcalls & _); [reflexivity|reflexivity|].
  cbv zeta in *. rewrite Hst, Hcalls. split; [done|].
  repeat constructor; discriminate.
Defined.

Lemma pre_cleanup_with_store_example :
  let run := pre_cleanup (ST := example_storage true false false []) (example_state []) in
  status run.1 = OK
  ∧ last (new_calls (example_state []) run.2)
    = Some (Call_remove_all "/data/persistent/10001/" OK).
Proof.
  destruct (pre_cleanup_with_store
              (ST := example_storage true false false []) (example_state [])
              {| get_persistent_index_path := "/data/persistent" |})
    as (Hst & Hcalls & _); [reflexivity|reflexivity|].
  cbv zeta in *. rewrite Hst, Hcalls. split; reflexivity.
Defined.

(** ** More on [finalize_delvec], and the scan after the cleanup *)

Section finalize_delvec_more.
Context {Cache Store World : Type} {SL : SchemaLib}.
Implicit Types (s : @State Cache Store World SL).

Lemma finalize_loop_frame (entries : list (N * list N)) s :
  let run := for_each (λ (new_delete : N * list N) s',
                do_append_delvec
                  (DelVector_init (version (_metadata s')) new_delete.2) new_delete.1 s')
               entries s in
  _tablet run.2 = _tablet s ∧ index_cache run.2 = index_cache s
  ∧ index_store run.2 = index_store s ∧ world run.2 = world s
  ∧ calls run.2 = calls s.
Proof.
  revert s. induction entries as [|[k ids] entries IH]; intros s; simpl; [done|].
  unfold mbind, M_bind, do_append_delvec at 1. simpl.
  match goal with |- context [for_each _ entries ?s1] =>
    destruct (IH s1) as (-> & -> & -> & -> & ->) end.
  done.
Qed.

(** X13.  [finalize_delvec] has no error path: it returns OK.  It only
    adds to the builder: the delete vectors queued before are still there,
    first and in their order, and each one added is for a rowset id of the
    DeletesMap and carries the version of the metadata.  It changes
    neither the metadata, nor the tablet, nor the index cache, nor the
    persistent index store, nor the world of the segment readers. *)
Theorem finalize_delvec_frame (new_deletes : DeletesMap) s :
  let s' := (finalize_delvec new_deletes s).2 in
  status (finalize_delvec new_deletes s).1 = OK
  ∧ queued_delvecs (_builder s) `prefix_of` queued_delvecs (_builder s')
  ∧ (∀ rowset_id delvec,
       (rowset_id, delvec) ∈ queued_delvecs (_builder s') →
       (rowset_id, delvec) ∈ queued_delvecs (_builder s)
       ∨ (is_Some (new_deletes !! rowset_id)
          ∧ dv_version delvec = version (_metadata s)))
  ∧ _metadata s' = _metadata s ∧ _tablet s' = _tablet s
  ∧ index_cache s' = index_cache s ∧ index_store s' = index_store s
  ∧ world s' = world s.
Proof.
  cbv zeta. unfold finalize_delvec.
  destruct (finalize_loop (map_to_list new_deletes) s) as (Hres & Hq & Hm).
  destruct (finalize_loop_frame (map_to_list new_deletes) s) as (Ht & Hc & Hst & Hw & Hcalls).
  cbv zeta in *. rewrite Hres, Hq. split; [done|].
  split; [by apply prefix_app_r|]. split; [|done].
  intros rowset_id delvec Hin. apply elem_of_app in Hin as [Hin|Hin]; [by left|right].
  apply list_elem_of_fmap in Hin as ([k ids] & Heq & Hin).
  injection Heq as -> ->. apply elem_of_map_to_list in Hin. by rewrite Hin.
Qed.
End finalize_delvec_more.

Lemma finalize_delvec_frame_example :
  let run := finalize_delvec ({[ 1 := [0] ]} : DeletesMap) (example_state [R3; R4]) in
  (1, {| dv_version := 12; dv_rowids := [0] |}) ∈ queued_delvecs (_builder run.2)
  ∧ dv_version {| dv_version := 12; dv_rowids := [0] |}
    = version (_metadata (example_state [R3; R4])).
Proof.
  intros run.
  assert ((1, {| dv_version := 12; dv_rowids := [0] |}) ∈ queued_delvecs (_builder run.2))
    as Hin.
  { subst run. unfold finalize_delvec. rewrite map_to_list_singleton.
    apply elem_of_cons. by left. }
  split; [done|].
  destruct (finalize_delvec_frame {[ 1 := [0] ]} (example_state [R3; R4]))
    as (_ & _ & Hadded & _).
  destruct (Hadded 1 {| dv_version := 12; dv_rowids := [0] |} Hin) as [Hold|[_ Hv]].
  - by apply elem_of_nil in Hold.
  - exact Hv.
Defined.

Section pre_cleanup_then_scan.
Context {Cache Store World : Type} {SL : SchemaLib} {ST : Storage Cache Store World}.
Implicit Types (s : @State Cache Store World SL) (pkey_schema : Schema).
Implicit Types (handler : @Handler Cache Store World SL ST).

(** X14.  [pre_cleanup] does not change what the scan reads, whatever it
    returns: the primary key schema generated after it is the one
    generated before it, the tablet id is the same, and [rowset_iterator]
    run after it goes through the rowsets of the metadata as it was before
    the cleanup, in sorted order: the rowsets handled are an initial part
    of that sequence, and all of it when [rowset_iterator] returns OK. *)
Theorem pre_cleanup_then_rowset_iterator pkey_schema handler s :
  let s1 := (pre_cleanup s).2 in
  let s2 := (rowset_iterator pkey_schema handler s1).2 in
  let rowsets := sorted_rowsets (get_rowsets (_tablet s) (_metadata s)) in
  generate_pkey_schema s1 = generate_pkey_schema s
  ∧ tablet_id s1 = tablet_id s
  ∧ handled (new_calls s1 s2) `prefix_of` rowsets
  ∧ (status (rowset_iterator pkey_schema handler s1).1 = OK →
     handled (new_calls s1 s2) = rowsets).
Proof.
  cbv zeta.
  destruct (pre_cleanup_fields s) as (Hm1 & Ht1 & _). cbv zeta in *.
  assert (get_rowsets (_tablet (pre_cleanup s).2) (_metadata (pre_cleanup s).2)
          = get_rowsets (_tablet s) (_metadata s)) as Hrowsets
    by (unfold get_rowsets; by rewrite Hm1).
  pose proof (rowset_iterator_outcome pkey_schema handler (pre_cleanup s).2) as Hout.
  rewrite Hrowsets in Hout.
  split; [unfold generate_pkey_schema; by rewrite Hm1|].
  split; [unfold tablet_id; by rewrite Ht1|].
  split; [by eapply loop_outcome_handled_prefix|].
  intros Hok. eapply loop_outcome_ok; [exact Hout|].
  destruct (rowset_iterator pkey_schema handler (pre_cleanup s).2).1 as [[]|];
    [done|discriminate Hok].
Qed.
End pre_cleanup_then_scan.

Lemma pre_cleanup_then_rowset_iterator_scenario_C :
  let s1 := (pre_cleanup (ST := example_storage true false false [])
               (example_state [R3; R4])).2 in
  let run := rowset_iterator (ST := example_storage true false false [])
               example_pkey_schema accepting_handler s1 in
  handled (new_calls s1 run.2) = [R4; R3].
Proof.
  destruct (pre_cleanup_then_rowset_iterator (ST := example_storage true false false [])
              example_pkey_schema accepting_handler (example_state [R3; R4]))
    as (_ & _ & _ & Hall).
  cbv zeta in *. rewrite Hall; reflexivity.
Defined.

(** ** More on hashed slices *)

Section hash_set_more.
Context {HL : SliceHashLib}.
Import HashSet.

Lemma EqualOnSliceWithHash_spec mem (x y : SliceWithHash) :
  EqualOnSliceWithHash mem x y = true
  ↔ hash x = hash y ∧ contents mem (base x) = contents mem (base y).
Proof.
  unfold EqualOnSliceWithHash. by rewrite andb_true_iff, N.eqb_eq, memequal_contents.
Qed.

Lemma TEqualOnSliceWithHash_spec {seed} mem (x y : TSliceWithHash seed) :
  TEqualOnSliceWithHash mem x y = true
  ↔ thash x = thash y ∧ contents mem (tbase x) = contents mem (tbase y).
Proof.
  unfold TEqualOnSliceWithHash. by rewrite andb_true_iff, N.eqb_eq, memequal_contents.
Qed.

(** X15.  Whatever constructor built the elements, and whatever hashes
    were handed to it, [EqualOnSliceWithHash] and [TEqualOnSliceWithHash]
    never hold of two elements with different bytes, and never of two
    elements to which [HashOnSliceWithHash] ([THashOnSliceWithHash]) gives
    different hashes: elements that are equal fall in the same bucket. *)
Theorem EqualOnSliceWithHash_sound (mem : Memory) (seed : PhmapSeed)
    (x y : SliceWithHash) (tx ty : TSliceWithHash seed) :
  (EqualOnSliceWithHash mem x y = true →
   HashOnSliceWithHash x = HashOnSliceWithHash y
   ∧ contents mem (base x) = contents mem (base y))
  ∧ (TEqualOnSliceWithHash mem tx ty = true →
     THashOnSliceWithHash tx = THashOnSliceWithHash ty
     ∧ contents mem (tbase tx) = contents mem (tbase ty)).
Proof.
  split.
  - intros Heq. by apply EqualOnSliceWithHash_spec in Heq.
  - intros Heq. by apply TEqualOnSliceWithHash_spec in Heq.
Qed.

(** X16.  Over one memory, [EqualOnSliceWithHash] and
    [TEqualOnSliceWithHash] are equivalence relations on all elements:
    every element equals itself, and equality is symmetric and
    transitive. *)
Theorem EqualOnSliceWithHash_equivalence (mem : Memory) (seed : PhmapSeed)
    (x y z : SliceWithHash) (tx ty tz : TSliceWithHash seed) :
  EqualOnSliceWithHash mem x x = true
  ∧ EqualOnSliceWithHash mem x y = EqualOnSliceWithHash mem y x
  ∧ (EqualOnSliceWithHash mem x y = true → EqualOnSliceWithHash mem y z = true →
     EqualOnSliceWithHash mem x z = true)
  ∧ TEqualOnSliceWithHash mem tx tx = true
  ∧ TEqualOnSliceWithHash mem tx ty = TEqualOnSliceWithHash mem ty tx
  ∧ (TEqualOnSliceWithHash mem tx ty = true → TEqualOnSliceWithHash mem ty tz = true →
     TEqualOnSliceWithHash mem tx tz = true).
Proof.
  split; [by apply EqualOnSliceWithHash_spec|].
  split; [apply eq_true_iff_eq; rewrite !EqualOnSliceWithHash_spec;
          split; intros [? ?]; by split|].
  split; [rewrite !EqualOnSliceWithHash_spec; intros [? ?] [? ?]; split; congruence|].
  split; [by apply TEqualOnSliceWithHash_spec|].
  split; [apply eq_true_iff_eq; rewrite !TEqualOnSliceWithHash_spec;
          split; intros [? ?]; by split|].
  rewrite !TEqualOnSliceWithHash_spec; intros [? ?] [? ?]; split; congruence.
Qed.

Lemma read_agree (mem mem' : Memory) n : ∀ p,
  (∀ a, p ≤ a < p + N.of_nat n → mem a = mem' a) → read mem p n = read mem' p n.
Proof.
  induction n as [|n IH]; intros p Hagree; simpl; [done|].
  rewrite (Hagree p) by lia. f_equal. apply IH. intros a Ha. apply Hagree. lia.
Qed.

Lemma contents_agree (mem mem' : Memory) (s : Slice) :
  agree_on mem mem' s → contents mem s = contents mem' s.
Proof.
  intros Hagree. apply read_agree. intros a Ha. apply Hagree. lia.
Qed.

(** X17.  The hashing constructor and the equality read memory only
    through the slices they are given: over two memories that hold the
    same bytes where the slices point, the constructor builds the same
    element and the equality gives the same answer, whatever the rest of
    the memory holds. *)
Theorem EqualOnSliceWithHash_reads_slices_only (mem mem' : Memory) (a : Slice)
    (x y : SliceWithHash) :
  agree_on mem mem' a → agree_on mem mem' (base x) → agree_on mem mem' (base y) →
  SliceWithHash_of_Slice mem a = SliceWithHash_of_Slice mem' a
  ∧ EqualOnSliceWithHash mem x y = EqualOnSliceWithHash mem' x y.
Proof.
  intros Ha Hx Hy. split.
  - unfold SliceWithHash_of_Slice, SliceHash. by rewrite (contents_agree mem mem' a).
  - apply eq_true_iff_eq. rewrite !EqualOnSliceWithHash_spec.
    by rewrite (contents_agree mem mem' (base x)), (contents_agree mem mem' (base y)).
Qed.
End hash_set_more.

(** *** Hashed slices over the example memory *)

Lemma EqualOnSliceWithHash_sound_example :
  let x := HashSet.SliceWithHash_of_Slice (HL := example_hash_lib) example_memory slice_ab in
  let y := HashSet.SliceWithHash_of_Slice (HL := example_hash_lib) example_memory slice_ab' in
  HashSet.contents example_memory slice_ab = HashSet.contents example_memory slice_ab'.
Proof.
  intros x y.
  destruct (EqualOnSliceWithHash_sound (HL := example_hash_lib) example_memory 7 x y
              (HashSet.TSliceWithHash_of_Slice (HL := example_hash_lib) 7 example_memory slice_ab)
              (HashSet.TSliceWithHash_of_Slice (HL := example_hash_lib) 7 example_memory slice_ab'))
    as [Hplain _].
  destruct Hplain as [_ Hbytes]; [reflexivity|exact Hbytes].
Defined.

Lemma EqualOnSliceWithHash_equivalence_example :
  let x := HashSet.SliceWithHash_of_Slice (HL := example_hash_lib) example_memory slice_ab in
  let y := HashSet.SliceWithHash_of_Slice (HL := example_hash_lib) example_memory slice_ab' in
  let z := HashSet.SliceWithHash_of_parts 0 2 2 in
  HashSet.EqualOnSliceWithHash example_memory y z = true.
Proof.
  intros x y z.
  destruct (EqualOnSliceWithHash_equivalence (HL := example_hash_lib) example_memory 7 y x z
              (HashSet.TSliceWithHash_of_parts (HL := example_hash_lib) 7 0 2 9)
              (HashSet.TSliceWithHash_of_parts (HL := example_hash_lib) 7 2 2 9)
              (HashSet.TSliceWithHash_of_parts (HL := example_hash_lib) 7 0 2 9))
    as (_ & _ & Htrans & _).
  apply Htrans; reflexivity.
Defined.

Lemma EqualOnSliceWithHash_reads_slices_only_example :
  let x := HashSet.SliceWithHash_of_parts 0 2 5 in
  let y := HashSet.SliceWithHash_of_parts 2 2 5 in
  HashSet.EqualOnSliceWithHash example_memory x y
  = HashSet.EqualOnSliceWithHash example_memory' x y.
Proof.
  intros x y.
  assert (∀ s, HashSet.data s + HashSet.size s ≤ 4 →
               HashSet.agree_on example_memory example_memory' s) as Hlow.
  { intros s Hs a Ha. unfold example_memory'.
    destruct (N.ltb_spec a 4) as [_|Hge]; [reflexivity|lia]. }
  destruct (EqualOnSliceWithHash_reads_slices_only (HL := example_hash_lib)
              example_memory example_memory' slice_ab x y)
    as [_ Hsame]; try (apply Hlow; vm_compute; discriminate).
  exact Hsame.
Defined.
